(** * sqlformatter.py: comment rewriting and backend selection

    A shallow embedding of the helpers of [sqlformatter.py]
    ([dash_to_block], [format_with_sqlglot], [format_with_sqlparse] and the
    "Format SQL" action) together with the properties the specification
    states about them.

    Python strings are sequences of Unicode code points; a code point is a
    number of type [N] and a string a list of them.  The two regular
    expressions of the source are run by a small backtracking matcher with the
    priorities of Python's [re] module (greedy and lazy repetition), and
    [re.sub] is the usual left-to-right scan for non-overlapping matches.  The
    libraries [sqlglot] and [sqlparse] are external: they are taken as
    arbitrary functions that either return or raise, and every call made to
    them is recorded in a trace. *)

From Stdlib Require Import List NArith Bool Arith Lia String Ascii.
Import ListNotations.

Set Implicit Arguments.

(** ** Python strings *)

Module PyStr.

Definition char := N.
Definition str := list char.

(** Reading an ASCII literal of this file as a Python string. *)
Definition u (s : string) : str :=
  map N_of_ascii (list_ascii_of_string s).

Definition LF : char := 10%N.
Definition CR : char := 13%N.
Definition SP : char := 32%N.
Definition HYPHEN : char := 45%N.
Definition SLASH : char := 47%N.
Definition STAR : char := 42%N.

(** [str.isspace] on one character: the code points with the Unicode
    White_Space property as CPython tabulates them
    ([_PyUnicode_IsWhitespace]). *)
Definition isspace (c : char) : bool :=
  ((9 <=? c) && (c <=? 13) || (28 <=? c) && (c <=? 32)
   || (c =? 133) || (c =? 160) || (c =? 5760)
   || (8192 <=? c) && (c <=? 8202)
   || (c =? 8232) || (c =? 8233) || (c =? 8239) || (c =? 8287)
   || (c =? 12288))%N.

(** The line boundaries of [str.splitlines] ([_PyUnicode_IsLinebreak]):
    U+000A to U+000D, U+001C to U+001E, U+0085, U+2028 and U+2029. *)
Definition islinebreak (c : char) : bool :=
  ((10 <=? c) && (c <=? 13) || (28 <=? c) && (c <=? 30)
   || (c =? 133) || (c =? 8232) || (c =? 8233))%N.

Fixpoint dropwhile (p : char -> bool) (s : str) : str :=
  match s with
  | [] => []
  | c :: s' => if p c then dropwhile p s' else s
  end.

(** [s.lstrip()], [s.rstrip()] and [s.strip()] without argument. *)
Definition lstrip (s : str) : str := dropwhile isspace s.
Definition rstrip (s : str) : str := rev (dropwhile isspace (rev s)).
Definition strip (s : str) : str := rstrip (lstrip s).

(** [s.startswith(p)]. *)
Fixpoint startswith (p s : str) : bool :=
  match p, s with
  | [], _ => true
  | _ :: _, [] => false
  | a :: p', c :: s' => (a =? c)%N && startswith p' s'
  end.

(** [p in s]: [p] occurs somewhere in [s]. *)
Fixpoint contains (p s : str) : bool :=
  startswith p s ||
  match s with
  | [] => false
  | _ :: s' => contains p s'
  end.

(** [sep.join(parts)]. *)
Fixpoint join (sep : str) (parts : list str) : str :=
  match parts with
  | [] => []
  | [p] => p
  | p :: ps => p ++ sep ++ join sep ps
  end.

(** [s.splitlines()]: [cur] is the line read so far, in reverse.  A line ends
    at every line boundary (\r\n counting as one); the terminators are not
    kept and a final unterminated line is a line only when it is not empty. *)
Fixpoint splitlines_from (cur : str) (s : str) : list str :=
  match s with
  | [] => match cur with [] => [] | _ => [rev cur] end
  | c :: s' =>
      if (c =? CR)%N then
        match s' with
        | d :: s'' =>
            if (d =? LF)%N then rev cur :: splitlines_from [] s''
            else rev cur :: splitlines_from [] s'
        | [] => rev cur :: splitlines_from [] s'
        end
      else if islinebreak c then rev cur :: splitlines_from [] s'
      else splitlines_from (c :: cur) s'
  end.

Definition splitlines (s : str) : list str := splitlines_from [] s.

(** [s.split()] without argument: the maximal runs of non-whitespace
    characters.  [cur] is the word read so far, in reverse. *)
Fixpoint split_from (cur : str) (s : str) : list str :=
  match s with
  | [] => match cur with [] => [] | _ => [rev cur] end
  | c :: s' =>
      if isspace c then
        match cur with
        | [] => split_from [] s'
        | _ => rev cur :: split_from [] s'
        end
      else split_from (c :: cur) s'
  end.

Definition split (s : str) : list str := split_from [] s.

(** [s.upper()] and [s.lower()], on the ASCII letters; the source applies them
    to the option strings "upper", "lower" and "capitalize" only. *)
Definition upper_char (c : char) : char :=
  if ((97 <=? c) && (c <=? 122))%N then (c - 32)%N else c.
Definition lower_char (c : char) : char :=
  if ((65 <=? c) && (c <=? 90))%N then (c + 32)%N else c.
Definition upper (s : str) : str := map upper_char s.
Definition lower (s : str) : str := map lower_char s.

Definition str_eqb (a b : str) : bool :=
  if list_eq_dec N.eq_dec a b then true else false.

(** The code points U+D800 to U+DFFF, which UTF-8 cannot encode. *)
Definition is_surrogate (c : char) : bool :=
  ((55296 <=? c) && (c <=? 57343))%N.

(** The bytes of one code point in UTF-8. *)
Definition utf8_bytes (c : char) : list N :=
  (if c <? 128 then [c]
   else if c <? 2048 then [192 + c / 64; 128 + c mod 64]
   else if c <? 65536 then
     [224 + c / 4096; 128 + (c / 64) mod 64; 128 + c mod 64]
   else
     [240 + c / 262144; 128 + (c / 4096) mod 64; 128 + (c / 64) mod 64;
      128 + c mod 64])%N.

End PyStr.
Export PyStr.

(** ** Regular expressions *)

Module Re.

(** The patterns of the source are sequences of one-character items, each
    plain or under a greedy [*] or a lazy [*?]. *)
Inductive cset : Type :=
| Only (c : char)      (* a literal character *)
| Except (c : char)    (* [^c] *)
| Dot.                 (* . under re.S: any character *)

Definition cset_mem (cs : cset) (c : char) : bool :=
  match cs with
  | Only a => (a =? c)%N
  | Except a => negb (a =? c)%N
  | Dot => true
  end.

Inductive item : Type :=
| One (cs : cset)
| Greedy (cs : cset)   (* cs*  *)
| Lazy (cs : cset).    (* cs*? *)

Definition regex := list item.

Definition consumed (c : char) (r : option (str * str)) : option (str * str) :=
  match r with
  | Some (m, rest) => Some (c :: m, rest)
  | None => None
  end.

(** A greedy star first takes one more character and only then tries the
    rest [k] of the pattern; a lazy star first tries the rest of the pattern
    and takes a character when that fails. *)
Fixpoint greedy_star (cs : cset) (k : str -> option (str * str)) (s : str)
  : option (str * str) :=
  match s with
  | c :: s' =>
      if cset_mem cs c then
        match greedy_star cs k s' with
        | Some (m, rest) => Some (c :: m, rest)
        | None => k s
        end
      else k s
  | [] => k s
  end.

Fixpoint lazy_star (cs : cset) (k : str -> option (str * str)) (s : str)
  : option (str * str) :=
  match k s with
  | Some res => Some res
  | None =>
      match s with
      | c :: s' => if cset_mem cs c then consumed c (lazy_star cs k s') else None
      | [] => None
      end
  end.

(** [re_match r s]: the match of [r] anchored at the start of [s] that a
    backtracking matcher finds first, as the matched text and what follows
    it. *)
Fixpoint re_match (r : regex) (s : str) : option (str * str) :=
  match r with
  | [] => Some ([], s)
  | One cs :: r' =>
      match s with
      | c :: s' => if cset_mem cs c then consumed c (re_match r' s') else None
      | [] => None
      end
  | Greedy cs :: r' => greedy_star cs (re_match r') s
  | Lazy cs :: r' => lazy_star cs (re_match r') s
  end.

(** [re.sub(r, repl, s)] for a pattern that matches no empty text (both
    patterns of the source start with two literal characters): at each
    position, from the left, a match is replaced by [repl] of its text and the
    scan goes on after it; a character where nothing matches is copied.
    Every step consumes a character, so [length s] steps suffice. *)
Fixpoint sub_scan (fuel : nat) (r : regex) (repl : str -> str) (s : str) : str :=
  match fuel with
  | 0 => s
  | S fuel' =>
      match s with
      | [] => []
      | c :: s' =>
          match re_match r s with
          | Some (m, rest) =>
              match m with
              | _ :: _ => repl m ++ sub_scan fuel' r repl rest
              | [] => c :: sub_scan fuel' r repl s'
              end
          | None => c :: sub_scan fuel' r repl s'
          end
      end
  end.

Definition re_sub (r : regex) (repl : str -> str) (s : str) : str :=
  sub_scan (List.length s) r repl s.

End Re.
Export Re.

(** ** The helpers of the source *)

(** [r"--[^\n]*"] *)
Definition dash_comment_re : regex :=
  [One (Only HYPHEN); One (Only HYPHEN); Greedy (Except LF)].

(** [lambda m: "/* " + m.group(0)[2:].strip() + " */"] *)
Definition to_block (m : str) : str :=
  u "/* " ++ strip (skipn 2 m) ++ u " */".

Definition dash_to_block (sql : str) : str :=
  re_sub dash_comment_re to_block sql.

(** [r"/\*.*?\*/"] with [flags=re.S] *)
Definition block_comment_re : regex :=
  [One (Only SLASH); One (Only STAR); Lazy Dot; One (Only STAR); One (Only SLASH)].

(** The tail of that pattern: the closing delimiter. *)
Definition close_re : regex := [One (Only STAR); One (Only SLASH)].

(** [re.sub(r"/\*.*?\*/", " ", sql, flags=re.S)] *)
Definition strip_block_comments (sql : str) : str :=
  re_sub block_comment_re (fun _ => u " ") sql.

(** ["\n".join([ln for ln in sql.splitlines()
                 if not ln.strip().startswith("--")])] *)
Definition drop_comment_lines (sql : str) : str :=
  join [LF]
    (filter (fun ln => negb (startswith (u "--") (strip ln))) (splitlines sql)).

(** ** Exceptions, options and the external libraries *)

Module Py.

(** What a call can raise.  [except Exception] catches the instances of
    [Exception] and of its subclasses, which is every error class; the
    signals deriving from [BaseException] alone ([KeyboardInterrupt],
    [SystemExit], [GeneratorExit]) pass through it. *)
Inductive exn : Type :=
| Exc (cls : string) (msg : str)
| BaseExc (cls : string) (msg : str).

Definition is_Exception (e : exn) : bool :=
  match e with
  | Exc _ _ => true
  | BaseExc _ _ => false
  end.

(** [str(e)], as the f-string of the action formats it. *)
Definition exn_str (e : exn) : str :=
  match e with
  | Exc _ msg => msg
  | BaseExc _ msg => msg
  end.

Inductive outcome (A : Type) : Type :=
| Return (a : A)
| Raise (e : exn).
Arguments Raise {A} e.

End Py.
Export Py.

(** The sidebar widgets: the options of one formatting request. *)
Inductive Dialect : Type :=
| ansi | bigquery | clickhouse | databricks | duckdb | hive | mysql | oracle
| postgres | presto | redshift | snowflake | spark | sqlite | tsql.

Inductive KeywordCase : Type := kw_upper | kw_lower | kw_capitalize.
Inductive IdentifierCase : Type := id_preserve | id_upper | id_lower.

(** The strings the select boxes return. *)
Definition keyword_case_str (k : KeywordCase) : str :=
  match k with
  | kw_upper => u "upper"
  | kw_lower => u "lower"
  | kw_capitalize => u "capitalize"
  end.

Definition identifier_case_str (k : IdentifierCase) : str :=
  match k with
  | id_preserve => u "preserve"
  | id_upper => u "upper"
  | id_lower => u "lower"
  end.

Record Options : Type := {
  dialect : Dialect;
  keyword_case : KeywordCase;
  identifier_case : IdentifierCase;
  indent : nat;
  width : nat;
  leading_comma : bool;
  normalize : bool;
  remove_comments : bool;
  compact : bool;
  single_line_safe : bool
}.

Definition with_keyword_case (k : KeywordCase) (o : Options) : Options :=
  {| dialect := dialect o; keyword_case := k;
     identifier_case := identifier_case o; indent := indent o;
     width := width o; leading_comma := leading_comma o;
     normalize := normalize o; remove_comments := remove_comments o;
     compact := compact o; single_line_safe := single_line_safe o |}.

(** The keyword arguments of [tree.sql(...)]. *)
Record SqlArgs : Type := {
  a_pretty : bool;
  a_keyword_case : str;
  a_identifier_case : option str;
  a_indent : nat;
  a_max_text_width : nat;
  a_leading_comma : bool;
  a_normalize : bool
}.

(** The keyword arguments of [sqlglot.transpile(sql, ...)]; [identity] is
    passed by the compact call only. *)
Record TranspileArgs : Type := {
  t_read : Dialect;
  t_pretty : bool;
  t_identity : option bool
}.

(** The keyword arguments of [sqlparse.format(sql, ...)]; [indent_width] is
    passed by the reindenting call only. *)
Record SqlparseArgs : Type := {
  f_keyword_case : str;
  f_reindent : bool;
  f_indent_width : option nat;
  f_strip_comments : bool
}.

(** The calls made to the two libraries, as they appear in a trace. *)
Inductive call : Type :=
| ParseOne (sql : str) (read : Dialect)
| TreeSql (args : SqlArgs)
| Transpile (sql : str) (args : TranspileArgs)
| SqlparseFormat (sql : str) (args : SqlparseArgs).

(** The runtime the module is loaded in: which of the two libraries could be
    imported, and what their entry points do; [tree] is sqlglot's syntax
    tree.  Then what surrounds the display of a result (lines 162-173): the
    three streamlit elements called there, which return or raise like any
    call, the stamp [datetime.now().strftime('%Y%m%d_%H%M%S')], and the
    message [str(e)] of the [UnicodeEncodeError] that [s.encode("utf-8")]
    raises on [s]. *)
Record Runtime (tree : Type) : Type := {
  HAVE_SQLGLOT : bool;
  HAVE_SQLPARSE : bool;
  parse_one : str -> Dialect -> outcome tree;
  tree_sql : tree -> SqlArgs -> outcome str;
  transpile : str -> TranspileArgs -> outcome (list str);
  sqlparse_format : str -> SqlparseArgs -> outcome str;
  st_code : str -> outcome unit;
  st_download_button : list N -> str -> outcome unit;
  st_success : outcome unit;
  timestamp : str;
  codec_message : str -> str
}.

(** ** Computations that call the libraries and may raise *)

Module Eff.

Definition M (A : Type) : Type := (list call * outcome A)%type.

Definition ret {A} (a : A) : M A := ([], Return a).
Definition raise {A} (e : exn) : M A := ([], Raise e).

Definition bind {A B} (m : M A) (k : A -> M B) : M B :=
  match m with
  | (t, Return a) => let (t', r) := k a in (t ++ t', r)
  | (t, Raise e) => (t, Raise e)
  end.

(** [try: m  except Exception as e: h e] *)
Definition try_except {A} (m : M A) (h : exn -> M A) : M A :=
  match m with
  | (t, Raise e) =>
      if is_Exception e then let (t', r) := h e in (t ++ t', r) else m
  | _ => m
  end.

(** One call to a library, recorded. *)
Definition invoke {A} (c : call) (o : outcome A) : M A := ([c], o).

(** [l[0]] *)
Definition index0 {A} (l : list A) : M A :=
  match l with
  | a :: _ => ret a
  | [] => raise (Exc "IndexError" (u "list index out of range"))
  end.

Definition trace {A} (m : M A) : list call := fst m.
Definition result {A} (m : M A) : outcome A := snd m.

End Eff.
Export Eff.

Declare Scope eff_scope.
Delimit Scope eff_scope with eff.
Notation "x <- m ;; k" := (bind m (fun x => k))
  (at level 61, m at next level, right associativity) : eff_scope.
Notation "'try' m 'except' e => h" := (try_except m (fun e => h))
  (at level 62, m at level 61, e name, h at level 62) : eff_scope.
Open Scope eff_scope.

(** ** The formatting functions *)

Section Formatter.

Variable tree : Type.
Variable rt : Runtime tree.

(** Lines 90-96 and 129-138: the text handed to the library.  The comment
    rewriting comes first, the comment stripping second. *)
Definition prepare (o : Options) (sql : str) : str :=
  let sql := if single_line_safe o then dash_to_block sql else sql in
  if remove_comments o
  then drop_comment_lines (strip_block_comments sql)
  else sql.

(** [sqlglot.transpile(sql, ...)[0]] *)
Definition transpile0 (sql : str) (args : TranspileArgs) : M str :=
  l <- invoke (Transpile sql args) (transpile rt sql args) ;; index0 l.

(** Lines 107-117: parse, then print the tree with the pretty options. *)
Definition parse_then_print (o : Options) (sql : str) : M str :=
  tree <- invoke (ParseOne sql (dialect o)) (parse_one rt sql (dialect o)) ;;
  let args :=
    {| a_pretty := true;
       a_keyword_case := keyword_case_str (keyword_case o);
       a_identifier_case :=
         if str_eqb (identifier_case_str (identifier_case o)) (u "preserve")
         then None else Some (identifier_case_str (identifier_case o));
       a_indent := indent o;
       a_max_text_width := width o;
       a_leading_comma := leading_comma o;
       a_normalize := normalize o |} in
  formatted <- invoke (TreeSql args) (tree_sql rt tree args) ;;
  ret formatted.

Definition format_with_sqlglot (o : Options) (sql : str) : M str :=
  let sql := prepare o sql in
  if compact o then
    try transpile0 sql
          {| t_read := dialect o; t_pretty := false; t_identity := Some true |}
    except _ => ret (join [SP] (split sql))
  else
    try parse_then_print o sql
    except e =>
      (try transpile0 sql
             {| t_read := dialect o; t_pretty := true; t_identity := None |}
       except _ => raise e).

(** [sqlparse.format(sql, ...)] *)
Definition invoke_format (sql : str) (args : SqlparseArgs) : M str :=
  invoke (SqlparseFormat sql args) (sqlparse_format rt sql args).

Definition format_with_sqlparse (o : Options) (sql : str) : M str :=
  if negb (HAVE_SQLPARSE rt) then
    raise (Exc "RuntimeError" (u "Neither sqlglot nor sqlparse available."))
  else
    let kw_case :=
      if negb (str_eqb (keyword_case_str (keyword_case o)) (u "capitalize"))
      then upper (keyword_case_str (keyword_case o))
      else u "upper" in
    let sql := prepare o sql in
    if compact o then
      invoke_format sql
        {| f_keyword_case := lower kw_case; f_reindent := false;
           f_indent_width := None; f_strip_comments := remove_comments o |}
    else
      invoke_format sql
        {| f_keyword_case := lower kw_case; f_reindent := true;
           f_indent_width := Some (indent o);
           f_strip_comments := remove_comments o |}.

(** Lines 157-160: sqlglot is preferred whenever it could be imported. *)
Definition format_sql (o : Options) (raw_sql : str) : M str :=
  if HAVE_SQLGLOT rt
  then format_with_sqlglot o raw_sql
  else format_with_sqlparse o raw_sql.

(** What the "Format SQL" button leaves on the page. *)
Inductive page : Type :=
| Warned (msg : str)       (* st.warning, nothing formatted *)
| Formatted (sql : str)    (* out_container.code, the download button and
                              st.success *)
| Failed (msg : str)       (* st.error alone *)
| Halted (sql : str) (download : bool) (msg : str).
                           (* out_container.code, the download button too
                              when [download], and then st.error *)

(** [pretty_sql.encode("utf-8")]: a surrogate cannot be encoded. *)
Definition encode_utf8 (s : str) : outcome (list N) :=
  if existsb is_surrogate s
  then Raise (Exc "UnicodeEncodeError" (codec_message rt s))
  else Return (List.concat (map utf8_bytes s)).

(** Line 175: [f"Failed to format: {e}"]. *)
Definition report (e : exn) : str := u "Failed to format: " ++ exn_str e.

(** One step inside the [try] of lines 156-175: when it raises an instance of
    [Exception], line 175 adds the error to what the page holds by then, which
    [held] tells; any other exception leaves the action. *)
Definition guarded {A} (held : str -> page) (step : outcome A)
    (next : A -> outcome page) : outcome page :=
  match step with
  | Return a => next a
  | Raise e => if is_Exception e then Return (held (report e)) else Raise e
  end.

(** Lines 162-173, with the handler of lines 174-175: the text is shown, the
    file name made, the text encoded, the download button made, the success
    shown. *)
Definition display (pretty_sql : str) : outcome page :=
  guarded Failed (st_code rt pretty_sql) (fun _ =>
  let file_name := u "formatted_" ++ timestamp rt ++ u ".sql" in
  guarded (Halted pretty_sql false) (encode_utf8 pretty_sql) (fun data =>
  guarded (Halted pretty_sql false) (st_download_button rt data file_name) (fun _ =>
  guarded (Halted pretty_sql true) (st_success rt) (fun _ =>
  Return (Formatted pretty_sql))))).

(** Lines 152-175, once the button is pressed: the formatter runs inside the
    same [try] as the display of its result. *)
Definition on_apply (o : Options) (raw_sql : str) : M page :=
  match raw_sql, strip raw_sql with
  | [], _ | _, [] => ret (Warned (u "Please paste or upload some SQL first."))
  | _, _ =>
      let (calls, formatted) := format_sql o raw_sql in
      (calls, guarded Failed formatted display)
  end.

End Formatter.

(** ** Traces *)

(** The SQL text a call hands to a library, if it hands one. *)
Definition call_sql (c : call) : option str :=
  match c with
  | ParseOne sql _ => Some sql
  | TreeSql _ => None
  | Transpile sql _ => Some sql
  | SqlparseFormat sql _ => Some sql
  end.

Definition is_transpile (c : call) : bool :=
  match c with
  | Transpile _ _ => true
  | _ => false
  end.

(** Every text that reaches a library in the run [m] is [sql]. *)
Definition hands_over {A} (sql : str) (m : M A) : Prop :=
  Forall (fun c => forall x, call_sql c = Some x -> x = sql) (trace m).

(** The arguments of the three calls the source spells out: the retry of the
    pretty path, the compact call, and the call to sqlparse with keyword
    case [kw]. *)
Definition pretty_retry (o : Options) : TranspileArgs :=
  {| t_read := dialect o; t_pretty := true; t_identity := None |}.

Definition compact_call (o : Options) : TranspileArgs :=
  {| t_read := dialect o; t_pretty := false; t_identity := Some true |}.

Definition fallback_call (kw : str) (o : Options) : SqlparseArgs :=
  {| f_keyword_case := kw;
     f_reindent := negb (compact o);
     f_indent_width := if compact o then None else Some (indent o);
     f_strip_comments := remove_comments o |}.

(** ** Sample runtimes and requests *)

Definition surrogate_message : str :=
  u "'utf-8' codec can't encode character '\ud800' in position 0: surrogates not allowed".

Definition parse_error : exn := Exc "ParseError" (u "Invalid expression / Unexpected token").
Definition token_error : exn := Exc "TokenError" (u "Error tokenizing").

(** sqlglot installed, rejecting the text on both of its entry points. *)
Definition rt_rejecting : Runtime unit :=
  {| HAVE_SQLGLOT := true;
     HAVE_SQLPARSE := true;
     parse_one := fun _ _ => Raise parse_error;
     tree_sql := fun _ _ => Return [];
     transpile := fun _ _ => Raise token_error;
     sqlparse_format := fun sql _ => Return sql;
     st_code := fun _ => Return tt;
     st_download_button := fun _ _ => Return tt;
     st_success := Return tt;
     timestamp := u "20261103_094100";
     codec_message := fun _ => surrogate_message |}.

(** sqlglot installed, failing to parse but able to transpile. *)
Definition rt_transpiling : Runtime unit :=
  {| HAVE_SQLGLOT := true;
     HAVE_SQLPARSE := true;
     parse_one := fun _ _ => Raise parse_error;
     tree_sql := fun _ _ => Return [];
     transpile := fun sql _ => Return [sql];
     sqlparse_format := fun sql _ => Return sql;
     st_code := fun _ => Return tt;
     st_download_button := fun _ _ => Return tt;
     st_success := Return tt;
     timestamp := u "20261103_094100";
     codec_message := fun _ => surrogate_message |}.

(** sqlparse alone. *)
Definition rt_sqlparse_only : Runtime unit :=
  {| HAVE_SQLGLOT := false;
     HAVE_SQLPARSE := true;
     parse_one := fun _ _ => Raise parse_error;
     tree_sql := fun _ _ => Return [];
     transpile := fun _ _ => Raise token_error;
     sqlparse_format := fun sql _ => Return sql;
     st_code := fun _ => Return tt;
     st_download_button := fun _ _ => Return tt;
     st_success := Return tt;
     timestamp := u "20261103_094100";
     codec_message := fun _ => surrogate_message |}.

(** Neither library. *)
Definition rt_bare : Runtime unit :=
  {| HAVE_SQLGLOT := false;
     HAVE_SQLPARSE := false;
     parse_one := fun _ _ => Raise parse_error;
     tree_sql := fun _ _ => Return [];
     transpile := fun _ _ => Raise token_error;
     sqlparse_format := fun sql _ => Return sql;
     st_code := fun _ => Return tt;
     st_download_button := fun _ _ => Return tt;
     st_success := Return tt;
     timestamp := u "20261103_094100";
     codec_message := fun _ => surrogate_message |}.

(** The widgets as the page first shows them. *)
Definition default_options : Options :=
  {| dialect := spark; keyword_case := kw_upper;
     identifier_case := id_preserve; indent := 4; width := 120;
     leading_comma := false; normalize := false; remove_comments := false;
     compact := false; single_line_safe := false |}.

Definition compact_options : Options :=
  {| dialect := spark; keyword_case := kw_upper;
     identifier_case := id_preserve; indent := 4; width := 120;
     leading_comma := false; normalize := false; remove_comments := false;
     compact := true; single_line_safe := false |}.

Definition stripping_options : Options :=
  {| dialect := spark; keyword_case := kw_upper;
     identifier_case := id_preserve; indent := 4; width := 120;
     leading_comma := false; normalize := false; remove_comments := true;
     compact := false; single_line_safe := false |}.

(** sqlglot installed and accepting the text: the printer returns the text it
    was given at parse time, upper-cased. *)
Definition rt_printing : Runtime str :=
  {| HAVE_SQLGLOT := true;
     HAVE_SQLPARSE := true;
     parse_one := fun sql _ => Return sql;
     tree_sql := fun t _ => Return (upper t);
     transpile := fun sql _ => Return [sql];
     sqlparse_format := fun sql _ => Return sql;
     st_code := fun _ => Return tt;
     st_download_button := fun _ _ => Return tt;
     st_success := Return tt;
     timestamp := u "20261103_094100";
     codec_message := fun _ => surrogate_message |}.

(** sqlglot installed and interrupted in every call. *)
Definition interrupt : exn := BaseExc "KeyboardInterrupt" [].

Definition rt_interrupted : Runtime unit :=
  {| HAVE_SQLGLOT := true;
     HAVE_SQLPARSE := true;
     parse_one := fun _ _ => Raise interrupt;
     tree_sql := fun _ _ => Return [];
     transpile := fun _ _ => Raise interrupt;
     sqlparse_format := fun sql _ => Return sql;
     st_code := fun _ => Return tt;
     st_download_button := fun _ _ => Return tt;
     st_success := Return tt;
     timestamp := u "20261103_094100";
     codec_message := fun _ => surrogate_message |}.

(** Both switches of the comment handling on. *)
Definition safe_stripping_options : Options :=
  {| dialect := spark; keyword_case := kw_upper;
     identifier_case := id_preserve; indent := 4; width := 120;
     leading_comma := false; normalize := false; remove_comments := true;
     compact := false; single_line_safe := true |}.

(** A compact request with other layout choices than [compact_options]. *)
Definition compact_fancy_options : Options :=
  {| dialect := spark; keyword_case := kw_capitalize;
     identifier_case := id_lower; indent := 8; width := 40;
     leading_comma := true; normalize := true; remove_comments := false;
     compact := true; single_line_safe := false |}.

(** A request that differs from [default_options] in what sqlglot alone
    understands. *)
Definition tsql_options : Options :=
  {| dialect := tsql; keyword_case := kw_upper;
     identifier_case := id_upper; indent := 4; width := 80;
     leading_comma := true; normalize := true; remove_comments := false;
     compact := false; single_line_safe := false |}.

(** The keyword arguments of [tree.sql(...)] for a request (lines 108-116). *)
Definition print_args (o : Options) : SqlArgs :=
  {| a_pretty := true;
     a_keyword_case := keyword_case_str (keyword_case o);
     a_identifier_case :=
       if str_eqb (identifier_case_str (identifier_case o)) (u "preserve")
       then None else Some (identifier_case_str (identifier_case o));
     a_indent := indent o;
     a_max_text_width := width o;
     a_leading_comma := leading_comma o;
     a_normalize := normalize o |}.

Definition is_sqlparse (c : call) : bool :=
  match c with
  | SqlparseFormat _ _ => true
  | _ => false
  end.

(** ** Statements of the specification, in its own words *)

(** "Replace all runs of whitespace with a single space": [in_run] tells
    whether the previous character was whitespace. *)
Fixpoint collapse_from (in_run : bool) (s : str) : str :=
  match s with
  | [] => []
  | c :: s' =>
      if isspace c
      then (if in_run then collapse_from true s' else SP :: collapse_from true s')
      else c :: collapse_from false s'
  end.

Definition collapse_runs (s : str) : str := collapse_from false s.

(** "Remove block comments matched by the delimiter pair, non-greedy, spanning
    line breaks, matching the first closing delimiter after each opening
    delimiter, by replacing each match with a single space": text outside
    comments is copied, a comment runs from an opening delimiter to the first
    closing delimiter after it and leaves one space, and an opening delimiter
    with no closing delimiter after it stays with all that follows. *)
Inductive BlockStripped : str -> str -> Prop :=
| bs_end : BlockStripped [] []
| bs_copy c s out :
    startswith (u "/*") (c :: s) = false ->
    BlockStripped s out ->
    BlockStripped (c :: s) (c :: out)
| bs_comment body rest out :
    contains (u "*/") (body ++ [STAR]) = false ->
    BlockStripped rest out ->
    BlockStripped (u "/*" ++ body ++ u "*/" ++ rest) (SP :: out)
| bs_unclosed t :
    contains (u "*/") t = false ->
    BlockStripped (u "/*" ++ t) (u "/*" ++ t).


(** The text of a line up to its newline, and the text from that newline
    on. *)
Fixpoint line_head (s : str) : str :=
  match s with
  | [] => []
  | c :: s' => if (c =? LF)%N then [] else c :: line_head s'
  end.

Fixpoint line_tail (s : str) : str :=
  match s with
  | [] => []
  | c :: s' => if (c =? LF)%N then s else line_tail s'
  end.

(** The words of [split]: not empty and free of whitespace. *)
Definition is_word (w : str) : Prop :=
  w <> [] /\ forallb (fun c => negb (isspace c)) w = true.

(** The first character of a non-empty text is not whitespace. *)
Definition starts_with_ink (x : str) : bool :=
  match x with
  | [] => true
  | c :: _ => negb (isspace c)
  end.

(** "A line whose first non-whitespace characters are a double-hyphen". *)
Definition comment_only_line (ln : str) : bool :=
  startswith (u "--") (lstrip ln).

(** ** The matcher and the scan *)

Section ReFacts.

Lemma consumed_some c r m rest :
  consumed c r = Some (m, rest) ->
  exists m', m = c :: m' /\ r = Some (m', rest).
Proof.
  destruct r as [[m' rest']|]; simpl; intros H; inversion H; subst.
  now exists m'.
Qed.

Lemma greedy_star_app cs k :
  (forall s m rest, k s = Some (m, rest) -> s = m ++ rest) ->
  forall s m rest, greedy_star cs k s = Some (m, rest) -> s = m ++ rest.
Proof.
  intros Hk s; induction s as [|c s IH]; intros m rest H; simpl in H.
  - now apply Hk.
  - destruct (cset_mem cs c); [|now apply Hk].
    destruct (greedy_star cs k s) as [[m' rest']|] eqn:E.
    + inversion H; subst. simpl. f_equal. now apply IH.
    + now apply Hk.
Qed.

Lemma lazy_star_app cs k :
  (forall s m rest, k s = Some (m, rest) -> s = m ++ rest) ->
  forall s m rest, lazy_star cs k s = Some (m, rest) -> s = m ++ rest.
Proof.
  intros Hk s; induction s as [|c s IH]; intros m rest H; simpl in H.
  - destruct (k []) as [res|] eqn:E; [|discriminate].
    inversion H; subst. now apply Hk.
  - destruct (k (c :: s)) as [res|] eqn:E.
    + inversion H; subst. now apply Hk.
    + destruct (cset_mem cs c); [|discriminate].
      apply consumed_some in H. destruct H as (m' & -> & H).
      simpl. f_equal. now apply IH.
Qed.

(** A match splits the text into what it covers and what follows. *)
Lemma re_match_app r :
  forall s m rest, re_match r s = Some (m, rest) -> s = m ++ rest.
Proof.
  induction r as [|[cs|cs|cs] r IH]; intros s m rest H; simpl in H.
  - now inversion H.
  - destruct s as [|c s]; [discriminate|].
    destruct (cset_mem cs c); [|discriminate].
    apply consumed_some in H. destruct H as (m' & -> & H).
    simpl. f_equal. now apply IH.
  - eapply greedy_star_app; eauto.
  - eapply lazy_star_app; eauto.
Qed.

(** A pattern that starts with a plain item matches no empty text: the case
    [re_sub] leaves aside does not arise for the patterns of the source. *)
Lemma re_match_nonempty cs r s m rest :
  re_match (One cs :: r) s = Some (m, rest) -> m <> [].
Proof.
  cbn [re_match]. destruct s as [|c s]; [discriminate|].
  destruct (cset_mem cs c); [|discriminate].
  intros H. apply consumed_some in H. destruct H as (m' & -> & _).
  discriminate.
Qed.

(** The scan does not depend on the fuel once there is enough of it. *)
Lemma sub_scan_fuel r repl :
  forall f1 f2 s,
    List.length s <= f1 -> List.length s <= f2 ->
    sub_scan f1 r repl s = sub_scan f2 r repl s.
Proof.
  induction f1 as [|f1 IH]; intros f2 s H1 H2.
  - destruct s; [|simpl in H1; lia]. now destruct f2.
  - destruct f2 as [|f2].
    + destruct s; [reflexivity|simpl in H2; lia].
    + destruct s as [|c s]; [reflexivity|].
      simpl in H1, H2. cbn [sub_scan].
      destruct (re_match r (c :: s)) as [[[|a m] rest]|] eqn:E.
      * f_equal. apply IH; lia.
      * apply re_match_app in E.
        assert (List.length (c :: s) = List.length ((a :: m) ++ rest))
          by now rewrite E.
        rewrite length_app in H. simpl in H.
        f_equal. apply IH; lia.
      * f_equal. apply IH; lia.
Qed.

Lemma re_sub_nil r repl : re_sub r repl [] = [].
Proof. reflexivity. Qed.

(** Where nothing matches, the character is copied. *)
Lemma re_sub_copy r repl c s :
  re_match r (c :: s) = None ->
  re_sub r repl (c :: s) = c :: re_sub r repl s.
Proof.
  intros H. unfold re_sub. cbn [List.length sub_scan]. now rewrite H.
Qed.

(** A match is replaced and the scan resumes behind it. *)
Lemma re_sub_match r repl s a m rest :
  re_match r s = Some (a :: m, rest) ->
  re_sub r repl s = repl (a :: m) ++ re_sub r repl rest.
Proof.
  intros H. pose proof (re_match_app _ _ H) as E.
  destruct s as [|c s]; [discriminate|].
  unfold re_sub. cbn [List.length sub_scan]. rewrite H.
  f_equal. apply sub_scan_fuel; [|lia].
  assert (L : List.length (c :: s) = List.length ((a :: m) ++ rest))
    by now rewrite E.
  rewrite length_app in L. simpl in L. lia.
Qed.

End ReFacts.

(** ** Facts about strings *)

(** Side conditions on the length of an explicit prefix. *)
Ltac count_chars := simpl; rewrite ?length_app; simpl; lia.

Section StrFacts.

Lemma u_dashes : u "--" = [HYPHEN; HYPHEN].
Proof. reflexivity. Qed.

Lemma u_open : u "/*" = [SLASH; STAR].
Proof. reflexivity. Qed.

Lemma u_close : u "*/" = [STAR; SLASH].
Proof. reflexivity. Qed.

Lemma startswith_app p : forall s, startswith p (p ++ s) = true.
Proof.
  induction p as [|a p IH]; intros s; simpl; [reflexivity|].
  now rewrite N.eqb_refl, IH.
Qed.

Lemma startswith_split p :
  forall s, startswith p s = true -> exists t, s = p ++ t.
Proof.
  induction p as [|a p IH]; intros s H.
  - now exists s.
  - destruct s as [|c s]; [discriminate|]. simpl in H.
    apply andb_true_iff in H. destruct H as [Hc H].
    apply N.eqb_eq in Hc. subst c.
    destruct (IH _ H) as [t ->]. now exists t.
Qed.

Lemma startswith_prefix p :
  forall a b, List.length p <= List.length a ->
              startswith p (a ++ b) = startswith p a.
Proof.
  induction p as [|x p IH]; intros a b H; [reflexivity|].
  destruct a as [|c a]; [simpl in H; lia|].
  cbn [app startswith]. rewrite IH; [reflexivity|simpl in H; lia].
Qed.

Lemma contains_cons p c s :
  contains p (c :: s) = startswith p (c :: s) || contains p s.
Proof. destruct p; reflexivity. Qed.

Lemma contains_iff p s :
  contains p s = true <-> exists a b, s = a ++ p ++ b.
Proof.
  split.
  - induction s as [|c s IH]; intros H.
    + simpl in H. rewrite orb_false_r in H.
      apply startswith_split in H. destruct H as [t H].
      now exists [], t.
    + rewrite contains_cons in H. apply orb_true_iff in H.
      destruct H as [H|H].
      * apply startswith_split in H. destruct H as [t H]. now exists [], t.
      * destruct (IH H) as (a & b & ->). now exists (c :: a), b.
  - intros (a & b & ->). induction a as [|c a IH].
    + simpl app. destruct (p ++ b) eqn:E.
      * destruct p; [reflexivity|discriminate].
      * rewrite contains_cons, <- E, startswith_app. reflexivity.
    + simpl app. rewrite contains_cons, IH. apply orb_true_r.
Qed.

Lemma contains_app_l p a b : contains p a = true -> contains p (a ++ b) = true.
Proof.
  intros H. apply contains_iff in H. destruct H as (x & y & ->).
  apply contains_iff. exists x, (y ++ b). now rewrite <- !app_assoc.
Qed.

Lemma contains_app_r p a b : contains p b = true -> contains p (a ++ b) = true.
Proof.
  intros H. apply contains_iff in H. destruct H as (x & y & ->).
  apply contains_iff. exists (a ++ x), y. now rewrite <- !app_assoc.
Qed.

Lemma contains_false_app_l p a b :
  contains p (a ++ b) = false -> contains p a = false.
Proof.
  intros H. destruct (contains p a) eqn:E; [|reflexivity].
  now rewrite (contains_app_l _ _ b E) in H.
Qed.

Lemma contains_false_app_r p a b :
  contains p (a ++ b) = false -> contains p b = false.
Proof.
  intros H. destruct (contains p b) eqn:E; [|reflexivity].
  now rewrite (contains_app_r _ a _ E) in H.
Qed.

Lemma contains_rev p s : contains (rev p) (rev s) = contains p s.
Proof.
  assert (D : forall q t, contains q t = true -> contains (rev q) (rev t) = true).
  { intros q t H. apply contains_iff in H. destruct H as (a & b & ->).
    apply contains_iff. exists (rev b), (rev a).
    now rewrite !rev_app_distr, <- app_assoc. }
  destruct (contains p s) eqn:E.
  - now apply D.
  - destruct (contains (rev p) (rev s)) eqn:E'; [|reflexivity].
    apply D in E'. rewrite !rev_involutive in E'. congruence.
Qed.

(** Dropping leading characters other than the first of [p] loses no
    occurrence of [p]. *)
Lemma contains_dropwhile a p q s :
  q a = false ->
  contains (a :: p) (dropwhile q s) = contains (a :: p) s.
Proof.
  intros Ha. induction s as [|c s IH]; [reflexivity|].
  cbn [dropwhile]. destruct (q c) eqn:Q; [|reflexivity].
  rewrite IH, contains_cons.
  replace (startswith (a :: p) (c :: s)) with false; [reflexivity|].
  simpl. destruct (N.eqb_spec a c); [congruence|reflexivity].
Qed.

Lemma contains_dashes_strip s : contains (u "--") (strip s) = contains (u "--") s.
Proof.
  unfold strip, rstrip, lstrip. rewrite u_dashes.
  change [HYPHEN; HYPHEN] with (rev [HYPHEN; HYPHEN]) at 1.
  rewrite contains_rev, contains_dropwhile by reflexivity.
  change [HYPHEN; HYPHEN] with (rev [HYPHEN; HYPHEN]) at 1.
  rewrite contains_rev. now apply contains_dropwhile.
Qed.

Lemma line_head_tail s : line_head s ++ line_tail s = s.
Proof.
  induction s as [|c s IH]; [reflexivity|]. simpl.
  destruct (c =? LF)%N; [reflexivity|]. simpl. now rewrite IH.
Qed.

Lemma line_head_whole s : ~ In LF s -> line_head s = s /\ line_tail s = [].
Proof.
  induction s as [|c s IH]; intros H; [now split|]. simpl.
  destruct (N.eqb_spec c LF) as [->|_].
  - exfalso. apply H. now left.
  - destruct IH as [-> ->]; [|now split]. intros Hin. apply H. now right.
Qed.

Lemma line_head_app_LF x y : line_head (x ++ LF :: y) = line_head x.
Proof.
  induction x as [|c x IH]; simpl; [reflexivity|].
  destruct (c =? LF)%N; [reflexivity|]. now rewrite IH.
Qed.

Lemma line_tail_app_LF x y : line_tail (x ++ LF :: y) = line_tail x ++ LF :: y.
Proof.
  induction x as [|c x IH]; simpl; [reflexivity|].
  destruct (c =? LF)%N; [reflexivity|]. now rewrite IH.
Qed.

Lemma line_tail_length s : List.length (line_tail s) <= List.length s.
Proof.
  induction s as [|c s IH]; simpl; [lia|].
  destruct (c =? LF)%N; simpl; lia.
Qed.

End StrFacts.

(** ** The comment normalizer *)

Section DashToBlock.

Lemma greedy_line s :
  greedy_star (Except LF) (re_match []) s = Some (line_head s, line_tail s).
Proof.
  induction s as [|c s IH]; [reflexivity|].
  cbn [greedy_star cset_mem line_head line_tail].
  rewrite (N.eqb_sym LF c). destruct (c =? LF)%N; cbn [negb]; [reflexivity|].
  now rewrite IH.
Qed.

Lemma dash_match t :
  re_match dash_comment_re (u "--" ++ t)
  = Some (u "--" ++ line_head t, line_tail t).
Proof.
  rewrite u_dashes. cbn [app re_match dash_comment_re cset_mem].
  rewrite N.eqb_refl. now rewrite greedy_line.
Qed.

Lemma dash_no_match s :
  startswith (u "--") s = false -> re_match dash_comment_re s = None.
Proof.
  rewrite u_dashes. intros H.
  destruct s as [|a [|b s]];
    cbn [re_match dash_comment_re cset_mem consumed startswith] in *.
  - reflexivity.
  - destruct (HYPHEN =? a)%N; reflexivity.
  - destruct (HYPHEN =? a)%N; [|reflexivity].
    destruct (HYPHEN =? b)%N; [discriminate|reflexivity].
Qed.

Lemma dash_to_block_nil : dash_to_block [] = [].
Proof. reflexivity. Qed.

(** A character that does not start a marker is copied. *)
Lemma dash_to_block_copy c s :
  startswith (u "--") (c :: s) = false ->
  dash_to_block (c :: s) = c :: dash_to_block s.
Proof.
  intros H. apply re_sub_copy. now apply dash_no_match.
Qed.

(** At a marker, the rest of the line is rewritten and the scan resumes at
    the newline. *)
Lemma dash_to_block_marker t :
  dash_to_block (u "--" ++ t)
  = u "/* " ++ strip (line_head t) ++ u " */" ++ dash_to_block (line_tail t).
Proof.
  unfold dash_to_block.
  rewrite (@re_sub_match dash_comment_re to_block (u "--" ++ t)
             HYPHEN (HYPHEN :: line_head t) (line_tail t)) by apply dash_match.
  unfold to_block. cbn [skipn]. now rewrite <- !app_assoc.
Qed.

Lemma dash_to_block_fixed s :
  contains (u "--") s = false -> dash_to_block s = s.
Proof.
  induction s as [|c s IH]; intros H; [reflexivity|].
  rewrite contains_cons in H. apply orb_false_iff in H. destruct H as [H1 H2].
  rewrite dash_to_block_copy by assumption. now rewrite IH.
Qed.

Lemma dash_to_block_changes s :
  contains (u "--") s = true -> dash_to_block s <> s.
Proof.
  induction s as [|c s IH]; intros H; [discriminate|].
  destruct (startswith (u "--") (c :: s)) eqn:E.
  - apply startswith_split in E. destruct E as [t E]. rewrite E.
    rewrite dash_to_block_marker. discriminate.
  - rewrite contains_cons, E in H. simpl in H.
    rewrite dash_to_block_copy by assumption.
    intros Heq. inversion Heq. now apply IH.
Qed.

(** Lines are rewritten independently of each other. *)
Lemma dash_to_block_newline :
  forall x y, dash_to_block (x ++ LF :: y) = dash_to_block x ++ LF :: dash_to_block y.
Proof.
  intros x. remember (List.length x) as n eqn:Hn.
  revert x Hn. induction n as [n IH] using lt_wf_ind. intros x Hn y.
  destruct x as [|c x].
  - simpl app. rewrite dash_to_block_copy by reflexivity. reflexivity.
  - destruct (startswith (u "--") (c :: x)) eqn:E.
    + apply startswith_split in E. destruct E as [t E]. rewrite E.
      rewrite <- app_assoc, !dash_to_block_marker.
      rewrite line_head_app_LF, line_tail_app_LF.
      rewrite (IH (List.length (line_tail t))) with (x := line_tail t);
        [|subst n; rewrite E, length_app; pose proof (line_tail_length t);
          simpl; lia|reflexivity].
      now rewrite <- !app_assoc.
    + assert (E' : startswith (u "--") ((c :: x) ++ LF :: y) = false).
      { destruct x as [|d x].
        - rewrite u_dashes. cbn [app startswith].
          destruct (HYPHEN =? c)%N; reflexivity.
        - rewrite startswith_prefix; [exact E|simpl; lia]. }
      simpl app in E' |- *. rewrite !dash_to_block_copy by assumption.
      rewrite (IH (List.length x)) with (x := x); [reflexivity|subst n; simpl; lia|reflexivity].
Qed.

(** A line with a marker: the text before the first marker stays, the text
    after it is trimmed and wrapped. *)
Lemma dash_to_block_one_line pre rest :
  contains (u "--") (pre ++ [HYPHEN]) = false ->
  ~ In LF rest ->
  dash_to_block (pre ++ u "--" ++ rest) = pre ++ u "/* " ++ strip rest ++ u " */".
Proof.
  intros Hpre Hrest. induction pre as [|c pre IH].
  - rewrite !app_nil_l, dash_to_block_marker.
    destruct (line_head_whole _ Hrest) as [-> ->].
    rewrite dash_to_block_nil. now rewrite app_nil_r.
  - rewrite <- !app_comm_cons in *. rewrite contains_cons in Hpre.
    apply orb_false_iff in Hpre. destruct Hpre as [H1 H2].
    rewrite dash_to_block_copy; [now rewrite IH|].
    replace (c :: pre ++ u "--" ++ rest)
      with ((c :: pre ++ [HYPHEN]) ++ HYPHEN :: rest)
      by (rewrite u_dashes; simpl; now rewrite <- app_assoc).
    rewrite startswith_prefix; [exact H1|].
    count_chars.
Qed.

Lemma dash_to_block_in_context before pre rest after :
  (before = [] \/ exists b, before = b ++ [LF]) ->
  contains (u "--") (pre ++ [HYPHEN]) = false ->
  ~ In LF rest ->
  (after = [] \/ exists a, after = LF :: a) ->
  dash_to_block (before ++ pre ++ u "--" ++ rest ++ after)
  = dash_to_block before ++ pre ++ u "/* " ++ strip rest ++ u " */"
      ++ dash_to_block after.
Proof.
  intros Hb Hpre Hrest Ha.
  pose proof (dash_to_block_one_line pre rest Hpre Hrest) as L.
  assert (R : dash_to_block (pre ++ u "--" ++ rest ++ after)
              = pre ++ u "/* " ++ strip rest ++ u " */" ++ dash_to_block after).
  { destruct Ha as [->|[a ->]].
    - rewrite app_nil_r, L, dash_to_block_nil, app_nil_r. reflexivity.
    - replace (pre ++ u "--" ++ rest ++ LF :: a)
        with ((pre ++ u "--" ++ rest) ++ LF :: a) by now rewrite <- !app_assoc.
      rewrite dash_to_block_newline, L.
      rewrite (@dash_to_block_copy LF a) by reflexivity.
      now rewrite <- !app_assoc. }
  destruct Hb as [->|[b ->]].
  - now rewrite dash_to_block_nil.
  - rewrite <- (app_assoc b [LF]). cbn [app].
    rewrite !dash_to_block_newline, R, dash_to_block_nil.
    now rewrite <- app_assoc.
Qed.

End DashToBlock.

(** ** The comment stripper: block comments *)

Section BlockComments.

Lemma close_match rest :
  re_match close_re (u "*/" ++ rest) = Some (u "*/", rest).
Proof. reflexivity. Qed.

Lemma close_no_match s :
  startswith (u "*/") s = false -> re_match close_re s = None.
Proof.
  rewrite u_close. intros H.
  destruct s as [|a [|b s]];
    cbn [re_match close_re cset_mem consumed startswith] in *.
  - reflexivity.
  - destruct (STAR =? a)%N; reflexivity.
  - destruct (STAR =? a)%N; [|reflexivity].
    destruct (SLASH =? b)%N; [discriminate|reflexivity].
Qed.

(** Without a closing delimiter the lazy star runs to the end and fails. *)
Lemma lazy_no_close t :
  contains (u "*/") t = false -> lazy_star Dot (re_match close_re) t = None.
Proof.
  induction t as [|c t IH]; intros H.
  - reflexivity.
  - rewrite contains_cons in H. apply orb_false_iff in H. destruct H as [H1 H2].
    cbn [lazy_star]. rewrite (close_no_match _ H1). cbn [cset_mem].
    now rewrite (IH H2).
Qed.

(** With one, it stops at the first. *)
Lemma lazy_first_close body rest :
  contains (u "*/") (body ++ [STAR]) = false ->
  lazy_star Dot (re_match close_re) (body ++ u "*/" ++ rest)
  = Some (body ++ u "*/", rest).
Proof.
  induction body as [|c body IH]; intros H.
  - rewrite !app_nil_l. destruct rest; reflexivity.
  - rewrite <- !app_comm_cons in *. rewrite contains_cons in H.
    apply orb_false_iff in H. destruct H as [H1 H2].
    cbn [lazy_star]. rewrite close_no_match.
    + cbn [cset_mem]. now rewrite (IH H2).
    + replace (c :: body ++ u "*/" ++ rest)
        with ((c :: body ++ [STAR]) ++ SLASH :: rest)
        by (rewrite u_close; simpl; now rewrite <- app_assoc).
      rewrite startswith_prefix; [exact H1|].
      count_chars.
Qed.

Lemma block_match t :
  re_match block_comment_re (u "/*" ++ t)
  = consumed SLASH (consumed STAR (lazy_star Dot (re_match close_re) t)).
Proof. reflexivity. Qed.

Lemma block_no_match s :
  startswith (u "/*") s = false -> re_match block_comment_re s = None.
Proof.
  rewrite u_open. intros H.
  destruct s as [|a [|b s]];
    cbn [re_match block_comment_re cset_mem consumed startswith] in *.
  - reflexivity.
  - destruct (SLASH =? a)%N; reflexivity.
  - destruct (SLASH =? a)%N; [|reflexivity].
    destruct (STAR =? b)%N; [discriminate|reflexivity].
Qed.

Lemma first_close t :
  contains (u "*/") t = true ->
  exists body rest,
    t = body ++ u "*/" ++ rest /\ contains (u "*/") (body ++ [STAR]) = false.
Proof.
  induction t as [|c t IH]; intros H; [discriminate|].
  destruct (startswith (u "*/") (c :: t)) eqn:E.
  - apply startswith_split in E. destruct E as [rest E].
    exists [], rest. now split.
  - rewrite contains_cons, E in H. destruct (IH H) as (body & rest & -> & Hb).
    exists (c :: body), rest. split; [reflexivity|].
    rewrite <- app_comm_cons, contains_cons, Hb, orb_false_r.
    rewrite <- (startswith_prefix (u "*/") (c :: body ++ [STAR]) (SLASH :: rest))
      by count_chars.
    etransitivity; [|exact E]. f_equal.
    rewrite u_close. simpl. now rewrite <- app_assoc.
Qed.

Lemma strip_block_nil : strip_block_comments [] = [].
Proof. reflexivity. Qed.

Lemma strip_block_copy c s :
  startswith (u "/*") (c :: s) = false ->
  strip_block_comments (c :: s) = c :: strip_block_comments s.
Proof.
  intros H. apply re_sub_copy. now apply block_no_match.
Qed.

(** A comment, up to its first closing delimiter, leaves one space. *)
Lemma strip_block_comment body rest :
  contains (u "*/") (body ++ [STAR]) = false ->
  strip_block_comments (u "/*" ++ body ++ u "*/" ++ rest)
  = SP :: strip_block_comments rest.
Proof.
  intros H. unfold strip_block_comments.
  rewrite (@re_sub_match block_comment_re (fun _ => u " ")
             (u "/*" ++ body ++ u "*/" ++ rest)
             SLASH (STAR :: body ++ u "*/") rest); [reflexivity|].
  rewrite block_match, (lazy_first_close _ _ H). reflexivity.
Qed.

(** Text without a closing delimiter is left as it is. *)
Lemma strip_block_no_close t :
  contains (u "*/") t = false -> strip_block_comments t = t.
Proof.
  induction t as [|c t IH]; intros H; [reflexivity|].
  assert (N : re_match block_comment_re (c :: t) = None).
  { destruct (startswith (u "/*") (c :: t)) eqn:E.
    - apply startswith_split in E. destruct E as [t' E]. rewrite E in *.
      rewrite block_match, lazy_no_close; [reflexivity|].
      now apply contains_false_app_r in H.
    - now apply block_no_match. }
  unfold strip_block_comments. rewrite re_sub_copy by exact N.
  rewrite contains_cons in H. apply orb_false_iff in H.
  f_equal. now apply IH.
Qed.

Lemma strip_block_unclosed t :
  contains (u "*/") t = false ->
  strip_block_comments (u "/*" ++ t) = u "/*" ++ t.
Proof.
  intros H. unfold strip_block_comments.
  rewrite u_open. cbn [app].
  rewrite re_sub_copy.
  - rewrite re_sub_copy by reflexivity.
    do 2 f_equal. now apply strip_block_no_close.
  - change (SLASH :: STAR :: t) with (u "/*" ++ t).
    now rewrite block_match, lazy_no_close.
Qed.

(** The block-comment pass does what the specification describes. *)
Lemma strip_block_spec : forall s, BlockStripped s (strip_block_comments s).
Proof.
  intros s. remember (List.length s) as n eqn:Hn.
  revert s Hn. induction n as [n IH] using lt_wf_ind. intros s Hn.
  destruct s as [|c s]; [constructor|].
  destruct (startswith (u "/*") (c :: s)) eqn:E.
  - apply startswith_split in E. destruct E as [t E]. rewrite E.
    destruct (contains (u "*/") t) eqn:C.
    + destruct (first_close _ C) as (body & rest & -> & Hb).
      rewrite strip_block_comment by exact Hb.
      apply bs_comment; [exact Hb|].
      apply (IH (List.length rest)); [|reflexivity].
      subst n. rewrite E, !length_app. simpl. lia.
    + rewrite strip_block_unclosed by exact C. now apply bs_unclosed.
  - rewrite strip_block_copy by exact E.
    apply bs_copy; [exact E|].
    apply (IH (List.length s)); [subst n; simpl; lia|reflexivity].
Qed.

(** And the description leaves no choice. *)
Lemma BlockStripped_unique s out :
  BlockStripped s out -> out = strip_block_comments s.
Proof.
  induction 1 as [|c s out Hc _ IH|body rest out Hb _ IH|t Ht].
  - reflexivity.
  - rewrite strip_block_copy by exact Hc. now rewrite IH.
  - rewrite strip_block_comment by exact Hb. now rewrite IH.
  - now rewrite strip_block_unclosed.
Qed.



End BlockComments.

(** ** Trimming, lines and words *)

Section Trimming.

Lemma dropwhile_snoc p a c :
  dropwhile p (a ++ [c])
  = match dropwhile p a with
    | [] => if p c then [] else [c]
    | d => d ++ [c]
    end.
Proof.
  induction a as [|x a IH]; [reflexivity|].
  cbn [app dropwhile]. destruct (p x); [exact IH|reflexivity].
Qed.

(** Trimming on the right, read from the left. *)
Lemma rstrip_cons c s :
  rstrip (c :: s)
  = match rstrip s with
    | [] => if isspace c then [] else [c]
    | r => c :: r
    end.
Proof.
  unfold rstrip. cbn [rev]. rewrite dropwhile_snoc.
  destruct (dropwhile isspace (rev s)) as [|x d] eqn:E.
  - cbn [rev]. now destruct (isspace c).
  - rewrite rev_app_distr. cbn [rev app].
    destruct (rev d ++ [x]) eqn:E'; [|reflexivity].
    now destruct (rev d).
Qed.

Lemma rstrip_cons_nonspace c s :
  isspace c = false -> rstrip (c :: s) = c :: rstrip s.
Proof.
  intros H. rewrite rstrip_cons, H. now destruct (rstrip s).
Qed.

Lemma rstrip_prefix s : exists w, s = rstrip s ++ w.
Proof.
  induction s as [|c s [w IH]]; [now exists []|].
  rewrite rstrip_cons. destruct (rstrip s) as [|x r].
  - destruct (isspace c).
    + now exists (c :: s).
    + exists s. reflexivity.
  - exists w. rewrite IH at 1. reflexivity.
Qed.

Lemma startswith_dashes_rstrip s :
  startswith (u "--") (rstrip s) = startswith (u "--") s.
Proof.
  destruct (startswith (u "--") s) eqn:E.
  - apply startswith_split in E. destruct E as [t ->].
    rewrite u_dashes. cbn [app].
    rewrite !rstrip_cons_nonspace by reflexivity. reflexivity.
  - destruct (startswith (u "--") (rstrip s)) eqn:E'; [|reflexivity].
    apply startswith_split in E'. destruct E' as [t E'].
    destruct (rstrip_prefix s) as [w Hw]. rewrite E', <- app_assoc in Hw.
    rewrite Hw, startswith_app in E. discriminate.
Qed.

(** The test of the source, [ln.strip().startswith("--")], looks at the first
    characters of the line that are not whitespace. *)
Lemma strip_startswith_dashes ln :
  startswith (u "--") (strip ln) = comment_only_line ln.
Proof. unfold strip, comment_only_line. apply startswith_dashes_rstrip. Qed.

Lemma drop_comment_lines_spec sql :
  drop_comment_lines sql
  = join [LF] (filter (fun ln => negb (comment_only_line ln)) (splitlines sql)).
Proof.
  unfold drop_comment_lines. f_equal. apply filter_ext.
  intros ln. now rewrite strip_startswith_dashes.
Qed.

Lemma lstrip_head s :
  lstrip s = [] \/ exists c t, lstrip s = c :: t /\ isspace c = false.
Proof.
  unfold lstrip. induction s as [|c s IH]; [now left|].
  cbn [dropwhile]. destruct (isspace c) eqn:E; [exact IH|].
  right. now exists c, s.
Qed.

Lemma lstrip_strip s : lstrip (strip s) = strip s.
Proof.
  unfold strip. destruct (lstrip_head s) as [->|(c & t & -> & E)].
  - reflexivity.
  - rewrite rstrip_cons_nonspace by exact E.
    unfold lstrip. cbn [dropwhile]. now rewrite E.
Qed.

(** A first line free of line boundaries, ended by a newline, is the first
    element of [splitlines]. *)
Lemma splitlines_from_line cur l rest :
  forallb (fun c => negb (islinebreak c)) l = true ->
  splitlines_from cur (l ++ LF :: rest)
  = (rev cur ++ l) :: splitlines_from [] rest.
Proof.
  revert cur. induction l as [|c l IH]; intros cur H.
  - rewrite app_nil_r. reflexivity.
  - cbn [forallb] in H. apply andb_true_iff in H. destruct H as [Hc Hl].
    apply negb_true_iff in Hc. rewrite <- app_comm_cons.
    cbn [splitlines_from].
    destruct (N.eqb_spec c CR) as [->|_]; [discriminate|].
    rewrite Hc, (IH _ Hl). cbn [rev]. now rewrite <- app_assoc.
Qed.

(** A comment-only first line vanishes with its newline; any other first
    line is kept as it is. *)
Lemma drop_comment_lines_first l rest :
  forallb (fun c => negb (islinebreak c)) l = true ->
  drop_comment_lines (l ++ LF :: rest)
  = if comment_only_line l
    then drop_comment_lines rest
    else join [LF]
           (l :: filter (fun ln => negb (comment_only_line ln)) (splitlines rest)).
Proof.
  intros H. rewrite !drop_comment_lines_spec. unfold splitlines.
  rewrite (splitlines_from_line [] _ rest H). cbn [rev app filter].
  now destruct (comment_only_line l).
Qed.

Lemma split_from_lstrip s : split_from [] (lstrip s) = split_from [] s.
Proof.
  unfold lstrip. induction s as [|c s IH]; [reflexivity|].
  cbn [dropwhile split_from]. destruct (isspace c) eqn:E; [exact IH|].
  cbn [split_from]. now rewrite E.
Qed.

Lemma split_from_word cur s : cur <> [] -> split_from cur s <> [].
Proof.
  revert cur. induction s as [|c s IH]; intros cur H; cbn [split_from].
  - destruct cur; [congruence|discriminate].
  - destruct (isspace c).
    + destruct cur; [congruence|discriminate].
    + apply IH. discriminate.
Qed.

Lemma split_from_blank s : split_from [] s = [] <-> rstrip s = [].
Proof.
  induction s as [|c s IH]; [now split|].
  rewrite rstrip_cons. cbn [split_from]. destruct (isspace c) eqn:E.
  - rewrite IH. destruct (rstrip s); split; congruence.
  - split; intros H.
    + exfalso. revert H. apply split_from_word. discriminate.
    + destruct (rstrip s); discriminate.
Qed.

Lemma collapse_from_lstrip s :
  collapse_from true s = collapse_from false (lstrip s).
Proof.
  unfold lstrip. induction s as [|c s IH]; [reflexivity|].
  cbn [collapse_from dropwhile]. destruct (isspace c) eqn:E; [exact IH|].
  cbn [collapse_from]. now rewrite E.
Qed.

(** Joining the words of [s] by single spaces: within a word in progress
    ([cur]) and between words. *)
Lemma join_split_from s :
  (forall cur, cur <> [] ->
     join [SP] (split_from cur s) = rev cur ++ collapse_from false (rstrip s))
  /\ join [SP] (split_from [] s) = collapse_from true (rstrip s).
Proof.
  induction s as [|c s [IH1 IH2]].
  - split; [|reflexivity]. intros cur H. cbn [split_from].
    destruct cur; [congruence|]. cbn [join]. now rewrite app_nil_r.
  - cbn [split_from]. destruct (isspace c) eqn:E.
    + rewrite rstrip_cons, E. split.
      * intros cur H. destruct cur as [|x cur]; [congruence|].
        destruct (rstrip s) as [|y r] eqn:R.
        -- apply split_from_blank in R. rewrite R. cbn [join collapse_from].
           now rewrite app_nil_r.
        -- destruct (split_from [] s) as [|w ws] eqn:W.
           ++ apply split_from_blank in W. congruence.
           ++ cbn [join]. cbn [join] in IH2. rewrite IH2.
              cbn [collapse_from]. rewrite E. reflexivity.
      * rewrite IH2. destruct (rstrip s) as [|y r]; [reflexivity|].
        cbn [collapse_from]. now rewrite E.
    + rewrite rstrip_cons_nonspace by exact E.
      cbn [collapse_from]. rewrite E. split.
      * intros cur H. rewrite IH1 by discriminate.
        cbn [rev]. now rewrite <- app_assoc.
      * rewrite IH1 by discriminate. reflexivity.
Qed.

(** [" ".join(s.split())] trims [s] and leaves one space for every run of
    whitespace that remains. *)
Lemma join_split_collapse s :
  join [SP] (split s) = collapse_runs (strip s).
Proof.
  unfold split, collapse_runs, strip.
  rewrite <- split_from_lstrip.
  rewrite (proj2 (join_split_from (lstrip s))), collapse_from_lstrip.
  f_equal. apply lstrip_strip.
Qed.

Lemma dropwhile_split p s :
  exists w, s = w ++ dropwhile p s /\ forallb p w = true.
Proof.
  induction s as [|c s (w & Hs & Hw)]; [now exists []|].
  cbn [dropwhile]. destruct (p c) eqn:E.
  - exists (c :: w). cbn [app forallb]. rewrite E, Hw. split; [|reflexivity].
    now rewrite <- Hs.
  - now exists [].
Qed.

Lemma dropwhile_ink s : starts_with_ink (dropwhile isspace s) = true.
Proof.
  induction s as [|c s IH]; [reflexivity|]. cbn [dropwhile].
  destruct (isspace c) eqn:E; [exact IH|]. cbn [starts_with_ink]. now rewrite E.
Qed.

(** What [strip] does, without reference to how: it takes whitespace, and
    nothing else, off both ends, until neither end is whitespace. *)
Lemma strip_decompose s :
  exists lead trail,
    s = lead ++ strip s ++ trail
    /\ forallb isspace lead = true
    /\ forallb isspace trail = true
    /\ starts_with_ink (strip s) = true
    /\ starts_with_ink (rev (strip s)) = true.
Proof.
  destruct (dropwhile_split isspace s) as (lead & Hs & Hl).
  destruct (dropwhile_split isspace (rev (lstrip s))) as (w & Hy & Hw).
  exists lead, (rev w). split; [|split; [exact Hl|split; [|split]]].
  - unfold strip, rstrip. rewrite <- rev_app_distr, <- Hy, rev_involutive.
    exact Hs.
  - apply forallb_forall. intros c Hc. apply in_rev in Hc.
    rewrite forallb_forall in Hw. now apply Hw.
  - unfold strip. destruct (lstrip_head s) as [->|(c & t & -> & E)].
    + reflexivity.
    + rewrite rstrip_cons_nonspace by exact E.
      cbn [starts_with_ink]. now rewrite E.
  - unfold strip, rstrip. rewrite rev_involutive. apply dropwhile_ink.
Qed.

End Trimming.

(** ** Runs of the formatting functions *)

Section Runs.

Variable tree : Type.
Variable rt : Runtime tree.

Lemma transpile0_trace sql args :
  trace (transpile0 rt sql args) = [Transpile sql args].
Proof.
  unfold transpile0, invoke, bind, trace.
  destruct (transpile rt sql args) as [[|a l]|e]; reflexivity.
Qed.

(** The parse-then-print path calls [parse_one] and, when that returned,
    [tree.sql], and nothing else. *)
Lemma parse_then_print_trace o sql :
  filter is_transpile (trace (parse_then_print rt o sql)) = []
  /\ hands_over sql (parse_then_print rt o sql).
Proof.
  unfold hands_over, parse_then_print, invoke, bind, ret, trace.
  destruct (parse_one rt sql (dialect o)) as [tr|e]; cbn -[u].
  - match goal with |- context [tree_sql rt tr ?a] =>
      destruct (tree_sql rt tr a) end; cbn -[u];
      (split; [reflexivity|]); repeat constructor;
      intros x Hx; inversion Hx; reflexivity.
  - split; [reflexivity|]. repeat constructor.
    intros x Hx; inversion Hx; reflexivity.
Qed.

Lemma hands_over_try A sql (m : M A) h :
  hands_over sql m -> (forall e, hands_over sql (h e)) ->
  hands_over sql (try_except m h).
Proof.
  unfold hands_over, try_except, trace. intros Hm Hh.
  destruct m as [t [a|e]]; [exact Hm|].
  destruct (is_Exception e); [|exact Hm].
  specialize (Hh e). destruct (h e) as [t' r]. cbn [fst] in *.
  apply Forall_app. now split.
Qed.

Lemma hands_over_silent A sql (m : M A) : trace m = [] -> hands_over sql m.
Proof. unfold hands_over. intros ->. constructor. Qed.

Lemma hands_over_transpile0 sql args : hands_over sql (transpile0 rt sql args).
Proof.
  unfold hands_over. rewrite transpile0_trace.
  repeat constructor. intros x Hx. now inversion Hx.
Qed.

Lemma format_with_sqlglot_compact o sql :
  compact o = true ->
  format_with_sqlglot rt o sql
  = try_except (transpile0 rt (prepare o sql) (compact_call o))
      (fun _ => ret (join [SP] (split (prepare o sql)))).
Proof. intros H. unfold format_with_sqlglot. now rewrite H. Qed.

Lemma format_with_sqlglot_pretty o sql :
  compact o = false ->
  format_with_sqlglot rt o sql
  = try_except (parse_then_print rt o (prepare o sql))
      (fun e => try_except (transpile0 rt (prepare o sql) (pretty_retry o))
                  (fun _ => raise e)).
Proof. intros H. unfold format_with_sqlglot. now rewrite H. Qed.

Lemma keyword_case_lowered k :
  lower (if negb (str_eqb (keyword_case_str k) (u "capitalize"))
         then upper (keyword_case_str k) else u "upper")
  = match k with kw_lower => u "lower" | _ => u "upper" end.
Proof. destruct k; reflexivity. Qed.

(** With sqlparse installed, the fallback is one call to [sqlparse.format]. *)
Lemma format_with_sqlparse_call o sql :
  HAVE_SQLPARSE rt = true ->
  format_with_sqlparse rt o sql
  = invoke_format rt (prepare o sql)
      (fallback_call
         (match keyword_case o with kw_lower => u "lower" | _ => u "upper" end)
         o).
Proof.
  intros H. unfold format_with_sqlparse. rewrite H. cbn [negb].
  rewrite keyword_case_lowered. unfold fallback_call.
  destruct (compact o); reflexivity.
Qed.

Lemma format_with_sqlparse_missing o sql :
  HAVE_SQLPARSE rt = false ->
  format_with_sqlparse rt o sql
  = raise (Exc "RuntimeError" (u "Neither sqlglot nor sqlparse available.")).
Proof. intros H. unfold format_with_sqlparse. now rewrite H. Qed.

Lemma format_with_sqlglot_hands_over o sql :
  hands_over (prepare o sql) (format_with_sqlglot rt o sql).
Proof.
  destruct (compact o) eqn:C.
  - rewrite format_with_sqlglot_compact by exact C.
    apply hands_over_try; [apply hands_over_transpile0|].
    intros e. now apply hands_over_silent.
  - rewrite format_with_sqlglot_pretty by exact C.
    apply hands_over_try; [apply parse_then_print_trace|].
    intros e. apply hands_over_try; [apply hands_over_transpile0|].
    intros e'. now apply hands_over_silent.
Qed.

Lemma format_with_sqlparse_hands_over o sql :
  hands_over (prepare o sql) (format_with_sqlparse rt o sql).
Proof.
  destruct (HAVE_SQLPARSE rt) eqn:H.
  - rewrite format_with_sqlparse_call by exact H.
    unfold hands_over, invoke_format, invoke, trace. cbn [fst].
    repeat constructor. intros x Hx. now inversion Hx.
  - rewrite format_with_sqlparse_missing by exact H.
    now apply hands_over_silent.
Qed.

(** Whichever library serves the request, the text it receives is the
    prepared one. *)
Lemma format_sql_hands_over o sql :
  hands_over (prepare o sql) (format_sql rt o sql).
Proof.
  unfold format_sql. destruct (HAVE_SQLGLOT rt).
  - apply format_with_sqlglot_hands_over.
  - apply format_with_sqlparse_hands_over.
Qed.

End Runs.

(** ** The properties the specification states *)

(** C1.  On every line with a double-hyphen marker, [dash_to_block] replaces
    the text from the first marker to the end of the line (the next newline
    excluded) by ["/* "], a body and [" */"].  The body is the text [rest]
    after the two hyphens with its leading and trailing whitespace trimmed:
    [rest] is the body between two runs of whitespace, and the body neither
    starts nor ends with whitespace.  The text [pre] of the line before the
    marker stays as it is, trailing whitespace included.  [before] is the
    text of the lines above and [after] that of the lines below.  In
    particular "SELECT 1 -- note" becomes "SELECT 1 /* note */", and so does
    that text with blanks and tabs around the note, the blanks before the
    marker being kept. *)
Theorem dash_to_block_rewrites_line :
  (forall before pre rest after,
      (before = [] \/ exists b, before = b ++ [LF]) ->
      contains (u "--") (pre ++ [HYPHEN]) = false ->
      ~ In LF rest ->
      (after = [] \/ exists a, after = LF :: a) ->
      exists lead body trail,
        rest = lead ++ body ++ trail
        /\ forallb isspace lead = true
        /\ forallb isspace trail = true
        /\ starts_with_ink body = true
        /\ starts_with_ink (rev body) = true
        /\ dash_to_block (before ++ pre ++ u "--" ++ rest ++ after)
           = dash_to_block before
               ++ pre ++ u "/* " ++ body ++ u " */"
               ++ dash_to_block after)
  /\ dash_to_block (u "SELECT 1 -- note") = u "SELECT 1 /* note */"
  /\ dash_to_block (u "SELECT 1  --" ++ [9; SP]%N ++ u "a  note" ++ [SP; 9; CR]%N
                      ++ [LF] ++ u "x --y ")
     = u "SELECT 1  /* a  note */" ++ [LF] ++ u "x /* y */".
Proof.
  split; [|split; vm_compute; reflexivity].
  intros before pre rest after Hb Hpre Hrest Ha.
  destruct (strip_decompose rest) as (lead & trail & E & Hl & Ht & H1 & H2).
  exists lead, (strip rest), trail.
  repeat (split; [assumption|]).
  now apply dash_to_block_in_context.
Qed.

Lemma dash_to_block_rewrites_line_witness :
  exists lead body trail,
    [SP; 9%N] ++ u "note" ++ [9%N; SP] = lead ++ body ++ trail
    /\ forallb isspace lead = true
    /\ forallb isspace trail = true
    /\ starts_with_ink body = true
    /\ starts_with_ink (rev body) = true
    /\ dash_to_block
         ([] ++ u "SELECT 1 " ++ u "--" ++ ([SP; 9%N] ++ u "note" ++ [9%N; SP]) ++ [])
       = dash_to_block [] ++ u "SELECT 1 " ++ u "/* " ++ body ++ u " */"
           ++ dash_to_block [].
Proof.
  apply (proj1 dash_to_block_rewrites_line [] (u "SELECT 1 ")
           ([SP; 9%N] ++ u "note" ++ [9%N; SP]) []).
  - left. reflexivity.
  - vm_compute. reflexivity.
  - vm_compute. intros H.
    repeat (destruct H as [H|H]; [discriminate H|]). exact H.
  - left. reflexivity.
Defined.

(** C2.  In pretty mode, when parsing and printing raises an error [e1], the
    transpile entry point is called once, in pretty mode, after the calls of
    the failed path; when that call raises an error too (or returns no
    statement, so that taking the first one raises), the error that reaches
    the caller is [e1]; when it returns statements, the first one is the
    result. *)
Theorem pretty_failure_retries_once
    (tree : Type) (rt : Runtime tree) (o : Options) (sql : str)
    (t1 : list call) (e1 : exn) :
  compact o = false ->
  parse_then_print rt o (prepare o sql) = (t1, Raise e1) ->
  is_Exception e1 = true ->
  let run := format_with_sqlglot rt o sql in
  let retry := transpile rt (prepare o sql) (pretty_retry o) in
  trace run = t1 ++ [Transpile (prepare o sql) (pretty_retry o)]
  /\ List.length (filter is_transpile (trace run)) = 1
  /\ (forall e2, retry = Raise e2 -> is_Exception e2 = true ->
       result run = Raise e1)
  /\ (retry = Return [] -> result run = Raise e1)
  /\ (forall out more, retry = Return (out :: more) -> result run = Return out).
Proof.
  intros C P E1 run retry.
  pose proof (proj1 (parse_then_print_trace rt o (prepare o sql))) as T1.
  rewrite P in T1. cbn [trace fst] in T1.
  assert (Run : run = (t1 ++ [Transpile (prepare o sql) (pretty_retry o)],
                       match retry with
                       | Return (out :: _) => Return out
                       | Return [] => Raise e1
                       | Raise e2 => if is_Exception e2 then Raise e1 else Raise e2
                       end)).
  { subst run retry. rewrite format_with_sqlglot_pretty by exact C.
    rewrite P. unfold try_except at 1. rewrite E1.
    unfold try_except, transpile0, invoke, bind, index0, ret, raise.
    destruct (transpile rt (prepare o sql) (pretty_retry o)) as [[|out more]|e2];
      cbn [app]; rewrite ?app_nil_r; try reflexivity.
    destruct (is_Exception e2); cbn [app]; now rewrite ?app_nil_r. }
  rewrite Run. unfold trace, result. cbn [fst snd].
  split; [reflexivity|]. split.
  { rewrite filter_app, T1. reflexivity. }
  split; [|split].
  - intros e2 -> E2. now rewrite E2.
  - now intros ->.
  - now intros out more ->.
Qed.

Lemma pretty_failure_retries_once_witness :
  result (format_with_sqlglot rt_rejecting default_options (u "selec 1 frm"))
  = Raise parse_error
  /\ result (format_with_sqlglot rt_transpiling default_options (u "selec 1 frm"))
     = Return (u "selec 1 frm").
Proof.
  split.
  - refine (proj1 (proj2 (proj2
      (@pretty_failure_retries_once unit rt_rejecting default_options
         (u "selec 1 frm") [ParseOne (u "selec 1 frm") spark] parse_error
         eq_refl eq_refl eq_refl))) token_error eq_refl eq_refl).
  - refine (proj2 (proj2 (proj2 (proj2
      (@pretty_failure_retries_once unit rt_transpiling default_options
         (u "selec 1 frm") [ParseOne (u "selec 1 frm") spark] parse_error
         eq_refl eq_refl eq_refl)))) (u "selec 1 frm") [] eq_refl).
Defined.

(** C3.  With [remove_comments] set, the text handed to either library is
    obtained in two passes, in this order: first every block comment, from an
    opening delimiter to the first closing delimiter after it and across line
    breaks, is replaced by one space ([BlockStripped], which determines the
    result); then the lines whose
    first non-whitespace characters are a double hyphen are dropped, and
    exactly those, so that a line with SQL before a trailing double-hyphen
    comment stays as it is: a first line that is only a comment vanishes with
    its newline, any other first line is the first line of the result. *)
Theorem comment_stripper_passes
    (tree : Type) (rt : Runtime tree) (o : Options) (sql : str) :
  remove_comments o = true ->
  let text := if single_line_safe o then dash_to_block sql else sql in
  let stripped := strip_block_comments text in
  let kept := filter (fun ln => negb (comment_only_line ln)) (splitlines stripped) in
  BlockStripped text stripped
  /\ (forall out, BlockStripped text out -> out = stripped)
  /\ prepare o sql = join [LF] kept
  /\ (forall ln, In ln kept <->
                 In ln (splitlines stripped) /\ comment_only_line ln = false)
  /\ (forall l rest,
        stripped = l ++ LF :: rest ->
        forallb (fun c => negb (islinebreak c)) l = true ->
        prepare o sql
        = if comment_only_line l
          then drop_comment_lines rest
          else join [LF]
                 (l :: filter (fun ln => negb (comment_only_line ln))
                         (splitlines rest)))
  /\ hands_over (prepare o sql) (format_with_sqlglot rt o sql)
  /\ hands_over (prepare o sql) (format_with_sqlparse rt o sql).
Proof.
  intros R text stripped kept. split; [apply strip_block_spec|].
  split; [apply BlockStripped_unique|]. split.
  - unfold prepare. rewrite R. apply drop_comment_lines_spec.
  - split; [|split; [|split]].
    + intros ln. unfold kept. rewrite filter_In, negb_true_iff. reflexivity.
    + intros l rest E L. unfold prepare. rewrite R. fold text. fold stripped.
      rewrite E. now apply drop_comment_lines_first.
    + apply format_with_sqlglot_hands_over.
    + apply format_with_sqlparse_hands_over.
Qed.

Lemma comment_stripper_passes_witness :
  prepare stripping_options
    (u "SELECT a /* one" ++ [LF] ++ u "two */, b" ++ [LF]
       ++ u "  -- full line comment" ++ [LF] ++ u "SELECT 1 -- trailing note")
  = u "SELECT a  , b" ++ [LF] ++ u "SELECT 1 -- trailing note".
Proof.
  etransitivity.
  - apply (proj1 (proj2 (proj2 (@comment_stripper_passes unit rt_sqlparse_only
                                  stripping_options _ eq_refl)))).
  - vm_compute. reflexivity.
Defined.

(** C4, as the code has it.  In compact mode, when [transpile(...)[0]] raises
    an error, the error stays inside: the result is the prepared text with its
    leading and trailing whitespace removed and every run of whitespace that
    remains replaced by one space (the words of the text joined by single
    spaces), and it is a returned value, never an exception. *)
Theorem compact_failure_collapses
    (tree : Type) (rt : Runtime tree) (o : Options) (sql : str) (e : exn) :
  compact o = true ->
  result (transpile0 rt (prepare o sql) (compact_call o)) = Raise e ->
  is_Exception e = true ->
  format_with_sqlglot rt o sql
  = ([Transpile (prepare o sql) (compact_call o)],
     Return (join [SP] (split (prepare o sql))))
  /\ join [SP] (split (prepare o sql)) = collapse_runs (strip (prepare o sql)).
Proof.
  intros C H E. split; [|apply join_split_collapse].
  rewrite format_with_sqlglot_compact by exact C.
  pose proof (transpile0_trace rt (prepare o sql) (compact_call o)) as T.
  destruct (transpile0 rt (prepare o sql) (compact_call o)) as [t r].
  unfold result, trace in *. cbn [fst snd] in *. subst t r.
  unfold try_except. rewrite E. reflexivity.
Qed.

Lemma compact_failure_collapses_witness :
  format_with_sqlglot rt_rejecting compact_options (u "select  1" ++ [LF])
  = ([Transpile (u "select  1" ++ [LF]) (compact_call compact_options)],
     Return (u "select 1")).
Proof.
  apply (proj1 (@compact_failure_collapses unit rt_rejecting compact_options
                  (u "select  1" ++ [LF]) token_error eq_refl eq_refl eq_refl)).
Defined.

(** C4 as the specification words it does not hold: replacing every run of
    whitespace by one space would keep a space for the final newline of
    "select  1\n", and the code returns "select 1". *)
Lemma compact_failure_trims_ends :
  let sql := u "select  1" ++ [LF] in
  result (transpile0 rt_rejecting (prepare compact_options sql)
            (compact_call compact_options)) = Raise token_error
  /\ result (format_with_sqlglot rt_rejecting compact_options sql)
     = Return (u "select 1")
  /\ collapse_runs (prepare compact_options sql) = u "select 1 "
  /\ result (format_with_sqlglot rt_rejecting compact_options sql)
     <> Return (collapse_runs (prepare compact_options sql)).
Proof.
  cbv zeta. repeat split; try (vm_compute; reflexivity).
  vm_compute. intros H. discriminate H.
Qed.

(** C5.  On a text without double hyphen, and more generally whenever its
    own output has none, applying [dash_to_block] twice gives what applying
    it once gives. *)
Theorem dash_to_block_idempotent (s : str) :
  (contains (u "--") s = false ->
   dash_to_block (dash_to_block s) = dash_to_block s)
  /\ (contains (u "--") (dash_to_block s) = false ->
      dash_to_block (dash_to_block s) = dash_to_block s).
Proof.
  split; intros H.
  - now rewrite !(dash_to_block_fixed s H).
  - now apply dash_to_block_fixed.
Qed.

Lemma dash_to_block_idempotent_witness :
  dash_to_block (dash_to_block (u "SELECT 1 /* note */"))
  = dash_to_block (u "SELECT 1 /* note */")
  /\ dash_to_block (dash_to_block (u "SELECT 1 -- note"))
     = dash_to_block (u "SELECT 1 -- note").
Proof.
  split.
  - apply (proj1 (dash_to_block_idempotent (u "SELECT 1 /* note */"))).
    vm_compute. reflexivity.
  - apply (proj2 (dash_to_block_idempotent (u "SELECT 1 -- note"))).
    vm_compute. reflexivity.
Defined.

(** C6.  A text without double hyphen comes back unchanged. *)
Theorem dash_to_block_without_marker (s : str) :
  contains (u "--") s = false -> dash_to_block s = s.
Proof. apply dash_to_block_fixed. Qed.

Lemma dash_to_block_without_marker_witness :
  dash_to_block (u "select a - b /* - */ from t") = u "select a - b /* - */ from t".
Proof.
  apply (dash_to_block_without_marker (u "select a - b /* - */ from t")).
  vm_compute. reflexivity.
Defined.

(** C7.  Without sqlglot and with sqlparse, a request for capitalized
    keywords makes one call to [sqlparse.format], with [keyword_case="upper"];
    the run is the one the same request with upper-case keywords makes, and
    its result is whatever that call returns or raises. *)
Theorem fallback_capitalize_is_upper
    (tree : Type) (rt : Runtime tree) (o : Options) (sql : str) :
  HAVE_SQLGLOT rt = false ->
  HAVE_SQLPARSE rt = true ->
  keyword_case o = kw_capitalize ->
  let args := fallback_call (u "upper") o in
  format_sql rt o sql
  = ([SqlparseFormat (prepare o sql) args],
     sqlparse_format rt (prepare o sql) args)
  /\ format_sql rt o sql = format_sql rt (with_keyword_case kw_upper o) sql.
Proof.
  intros G P K args. unfold format_sql. rewrite G.
  rewrite !format_with_sqlparse_call by exact P.
  rewrite K. split; reflexivity.
Qed.

Lemma fallback_capitalize_is_upper_witness :
  format_sql rt_sqlparse_only (with_keyword_case kw_capitalize default_options)
    (u "select 1")
  = ([SqlparseFormat (u "select 1")
        {| f_keyword_case := u "upper"; f_reindent := true;
           f_indent_width := Some 4; f_strip_comments := false |}],
     Return (u "select 1")).
Proof.
  apply (proj1 (@fallback_capitalize_is_upper unit rt_sqlparse_only
                  (with_keyword_case kw_capitalize default_options)
                  (u "select 1") eq_refl eq_refl eq_refl)).
Defined.

(** C8.  With neither library, every text sent to the formatter raises
    [RuntimeError("Neither sqlglot nor sqlparse available.")] before any call
    to a library; the page then shows that message as the failure, and for no
    input does it show formatted text. *)
Theorem no_backend_no_output
    (tree : Type) (rt : Runtime tree) (o : Options) (raw_sql : str) :
  HAVE_SQLGLOT rt = false ->
  HAVE_SQLPARSE rt = false ->
  format_sql rt o raw_sql
  = ([], Raise (Exc "RuntimeError" (u "Neither sqlglot nor sqlparse available.")))
  /\ (strip raw_sql <> [] ->
      on_apply rt o raw_sql
      = ([], Return (Failed (u "Failed to format: Neither sqlglot nor sqlparse available."))))
  /\ trace (on_apply rt o raw_sql) = []
  /\ (forall out, result (on_apply rt o raw_sql) <> Return (Formatted out)).
Proof.
  intros G P.
  assert (F : format_sql rt o raw_sql
              = ([], Raise (Exc "RuntimeError"
                              (u "Neither sqlglot nor sqlparse available.")))).
  { unfold format_sql. rewrite G. now apply format_with_sqlparse_missing. }
  split; [exact F|].
  unfold on_apply. rewrite F.
  destruct raw_sql as [|c raw]; [repeat split; easy|].
  destruct (strip (c :: raw)) as [|d w]; repeat split; easy.
Qed.

Lemma no_backend_no_output_witness :
  on_apply rt_bare default_options (u "select 1")
  = ([], Return (Failed (u "Failed to format: Neither sqlglot nor sqlparse available."))).
Proof.
  apply (proj1 (proj2 (@no_backend_no_output unit rt_bare default_options
                         (u "select 1") eq_refl eq_refl))).
  vm_compute. intros H. discriminate H.
Defined.

(** C9.  On a line with more than one marker, [dash_to_block] makes one
    rewrite, from the first marker to the end of the line: the later markers
    end up inside the block comment, so the output still contains a double
    hyphen and a second application changes it again.  For instance
    "x -- a -- b" becomes "x /* a -- b */". *)
Theorem dash_to_block_later_markers :
  (forall before pre rest after,
      (before = [] \/ exists b, before = b ++ [LF]) ->
      contains (u "--") (pre ++ [HYPHEN]) = false ->
      ~ In LF rest ->
      (after = [] \/ exists a, after = LF :: a) ->
      contains (u "--") rest = true ->
      let out := dash_to_block (before ++ pre ++ u "--" ++ rest ++ after) in
      out = dash_to_block before
              ++ pre ++ u "/* " ++ strip rest ++ u " */"
              ++ dash_to_block after
      /\ contains (u "--") out = true
      /\ dash_to_block out <> out)
  /\ dash_to_block (u "x -- a -- b") = u "x /* a -- b */"
  /\ dash_to_block (dash_to_block (u "x -- a -- b")) = u "x /* a /* b */ */".
Proof.
  split; [|split; vm_compute; reflexivity].
  intros before pre rest after Hb Hpre Hrest Ha Hdd out.
  assert (E : out = dash_to_block before
                      ++ pre ++ u "/* " ++ strip rest ++ u " */"
                      ++ dash_to_block after)
    by now apply dash_to_block_in_context.
  assert (D : contains (u "--") out = true).
  { rewrite E. do 3 apply contains_app_r. apply contains_app_l.
    now rewrite contains_dashes_strip. }
  split; [exact E|]. split; [exact D|].
  now apply dash_to_block_changes.
Qed.

Lemma dash_to_block_later_markers_witness :
  let out := dash_to_block ([] ++ u "x " ++ u "--" ++ u " a -- b" ++ []) in
  contains (u "--") out = true /\ dash_to_block out <> out.
Proof.
  refine (proj2 (proj1 dash_to_block_later_markers [] (u "x ") (u " a -- b") []
                  (or_introl eq_refl) eq_refl _ (or_introl eq_refl) eq_refl)).
  vm_compute. intros H.
  repeat (destruct H as [H|H]; [discriminate H|]). exact H.
Defined.



(** ** Further properties of the page action and of the two formatters *)

Section MoreRuns.

Variable tree : Type.
Variable rt : Runtime tree.

Lemma lstrip_blank s : lstrip s = [] <-> forallb isspace s = true.
Proof.
  unfold lstrip. induction s as [|c s IH]; [now split|].
  cbn [dropwhile forallb]. destruct (isspace c); [exact IH|].
  split; discriminate.
Qed.

(** [not raw_sql.strip()] holds for the texts made of whitespace only. *)
Lemma strip_blank s : strip s = [] <-> forallb isspace s = true.
Proof.
  rewrite <- lstrip_blank. unfold strip.
  destruct (lstrip_head s) as [->|(c & t & -> & E)]; [now split|].
  rewrite rstrip_cons_nonspace by exact E. split; discriminate.
Qed.

(** What the page shows for a text that is not blank. *)
Lemma on_apply_run o raw :
  strip raw <> [] ->
  on_apply rt o raw
  = (trace (format_sql rt o raw),
     guarded Failed (result (format_sql rt o raw)) (display rt)).
Proof.
  intros H. unfold on_apply.
  destruct raw as [|c raw]; [now elim H|].
  destruct (strip (c :: raw)) as [|d w]; [now elim H|].
  now destruct (format_sql rt o (c :: raw)).
Qed.

(** An exception that leaves a guarded step is no instance of [Exception]. *)
Lemma guarded_raise A held (step : outcome A) next e :
  (forall a e', next a = Raise e' -> is_Exception e' = false) ->
  guarded held step next = Raise e -> is_Exception e = false.
Proof.
  intros Hn. unfold guarded. destruct step as [a|e']; [apply Hn|].
  destruct (is_Exception e') eqn:E; [discriminate|].
  intros H. inversion H; subst. exact E.
Qed.

Lemma encode_utf8_raise s e :
  encode_utf8 rt s = Raise e -> is_Exception e = true.
Proof.
  unfold encode_utf8. destruct (existsb is_surrogate s); [|discriminate].
  intros H. inversion H. reflexivity.
Qed.

Lemma display_raise out e : display rt out = Raise e -> is_Exception e = false.
Proof.
  unfold display. apply guarded_raise. intros _ e1.
  apply guarded_raise. intros data e2.
  apply guarded_raise. intros _ e3.
  apply guarded_raise. intros _ e4. discriminate.
Qed.

(** A page with the failure alone comes from [out_container.code] raising. *)
Lemma display_failed out msg :
  display rt out = Return (Failed msg) ->
  exists e, st_code rt out = Raise e /\ is_Exception e = true /\ msg = report e.
Proof.
  unfold display, guarded. destruct (st_code rt out) as [[]|e].
  - destruct (encode_utf8 rt out) as [data|e1];
      [|destruct (is_Exception e1); discriminate].
    destruct (st_download_button rt data _) as [[]|e2];
      [|destruct (is_Exception e2); discriminate].
    destruct (st_success rt) as [[]|e3];
      [discriminate|destruct (is_Exception e3); discriminate].
  - destruct (is_Exception e) eqn:E; [|discriminate].
    intros H. inversion H. now exists e.
Qed.

(** The display never answers by the warning. *)
Lemma guarded_not_warned A held (step : outcome A) next msg :
  (forall m, held m <> Warned msg) ->
  (forall a, next a <> Return (Warned msg)) ->
  guarded held step next <> Return (Warned msg).
Proof.
  intros Hh Hn. unfold guarded. destruct step as [a|e]; [apply Hn|].
  destruct (is_Exception e); [|discriminate].
  intros H. inversion H as [H']. now apply Hh in H'.
Qed.

Lemma display_not_warned out msg : display rt out <> Return (Warned msg).
Proof.
  unfold display.
  apply guarded_not_warned; [discriminate|]. intros _.
  apply guarded_not_warned; [discriminate|]. intros data.
  apply guarded_not_warned; [discriminate|]. intros _.
  apply guarded_not_warned; [discriminate|]. intros _. discriminate.
Qed.

Lemma on_apply_blank o raw :
  strip raw = [] ->
  on_apply rt o raw
  = ([], Return (Warned (u "Please paste or upload some SQL first."))).
Proof.
  intros H. unfold on_apply. destruct raw as [|c raw]; [reflexivity|].
  now rewrite H.
Qed.

(** The run of the pretty path after a failed parse or print. *)
Lemma format_with_sqlglot_retry_run o sql t1 e1 :
  compact o = false ->
  parse_then_print rt o (prepare o sql) = (t1, Raise e1) ->
  is_Exception e1 = true ->
  format_with_sqlglot rt o sql
  = (t1 ++ [Transpile (prepare o sql) (pretty_retry o)],
     match transpile rt (prepare o sql) (pretty_retry o) with
     | Return (out :: _) => Return out
     | Return [] => Raise e1
     | Raise e2 => if is_Exception e2 then Raise e1 else Raise e2
     end).
Proof.
  intros C P E1. rewrite format_with_sqlglot_pretty by exact C.
  rewrite P. unfold try_except at 1. rewrite E1.
  unfold try_except, transpile0, invoke, bind, index0, ret, raise.
  destruct (transpile rt (prepare o sql) (pretty_retry o)) as [[|out more]|e2];
    cbn [app]; rewrite ?app_nil_r; try reflexivity.
  destruct (is_Exception e2); cbn [app]; now rewrite ?app_nil_r.
Qed.

(** The run of the compact path. *)
Lemma format_with_sqlglot_compact_run o sql :
  compact o = true ->
  format_with_sqlglot rt o sql
  = ([Transpile (prepare o sql) (compact_call o)],
     match transpile rt (prepare o sql) (compact_call o) with
     | Return (out :: _) => Return out
     | Return [] => Return (join [SP] (split (prepare o sql)))
     | Raise e =>
         if is_Exception e
         then Return (join [SP] (split (prepare o sql)))
         else Raise e
     end).
Proof.
  intros C. rewrite format_with_sqlglot_compact by exact C.
  unfold try_except, transpile0, invoke, bind, index0, ret, raise.
  destruct (transpile rt (prepare o sql) (compact_call o)) as [[|out more]|e];
    cbn [app is_Exception]; try reflexivity.
  destruct (is_Exception e); reflexivity.
Qed.

(** The run of the pretty path when parsing returns a tree. *)
Lemma parse_then_print_parsed o sql tr :
  parse_one rt sql (dialect o) = Return tr ->
  parse_then_print rt o sql
  = ([ParseOne sql (dialect o); TreeSql (print_args o)],
     tree_sql rt tr (print_args o)).
Proof.
  intros P. unfold parse_then_print, invoke, bind, ret. rewrite P.
  fold (print_args o).
  destruct (tree_sql rt tr (print_args o)); reflexivity.
Qed.

Lemma parse_then_print_unparsed o sql e :
  parse_one rt sql (dialect o) = Raise e ->
  parse_then_print rt o sql = ([ParseOne sql (dialect o)], Raise e).
Proof.
  intros P. unfold parse_then_print, invoke, bind. now rewrite P.
Qed.

End MoreRuns.

(** X1.  A text that is empty or made of whitespace only is answered by the
    warning, without any call to a library; any other text is passed to the
    formatter, and the page then shows its outcome, not the warning. *)
Theorem blank_input_only_warns
    (tree : Type) (rt : Runtime tree) (o : Options) (raw : str) :
  (forallb isspace raw = true ->
   on_apply rt o raw
   = ([], Return (Warned (u "Please paste or upload some SQL first."))))
  /\ (forallb isspace raw = false ->
      trace (on_apply rt o raw) = trace (format_sql rt o raw)
      /\ forall msg, result (on_apply rt o raw) <> Return (Warned msg)).
Proof.
  split; intros H.
  - apply on_apply_blank. now apply strip_blank.
  - assert (N : strip raw <> []).
    { intros E. apply strip_blank in E. congruence. }
    rewrite (on_apply_run rt o raw N). unfold trace at 1, result at 1.
    cbn [fst snd]. split; [reflexivity|]. intros msg.
    apply guarded_not_warned; [discriminate|]. intros out.
    apply display_not_warned.
Qed.

Lemma blank_input_only_warns_witness :
  on_apply rt_rejecting default_options ([SP; SP; LF])
  = ([], Return (Warned (u "Please paste or upload some SQL first.")))
  /\ trace (on_apply rt_rejecting default_options (u " select 1"))
     = trace (format_sql rt_rejecting default_options (u " select 1")).
Proof.
  split.
  - apply (proj1 (@blank_input_only_warns unit rt_rejecting default_options
                    [SP; SP; LF])). reflexivity.
  - apply (proj2 (@blank_input_only_warns unit rt_rejecting default_options
                    (u " select 1"))). reflexivity.
Defined.

(** X2.  No error leaves the page action: whatever the libraries raise, an
    exception that comes out of it is not an instance of [Exception]. *)
Theorem page_catches_every_error
    (tree : Type) (rt : Runtime tree) (o : Options) (raw : str) (e : exn) :
  result (on_apply rt o raw) = Raise e -> is_Exception e = false.
Proof.
  destruct (strip raw) as [|d w] eqn:S.
  - rewrite (on_apply_blank rt o raw S). discriminate.
  - assert (N : strip raw <> []) by (rewrite S; discriminate).
    rewrite (on_apply_run rt o raw N). unfold result at 1. cbn [snd].
    apply guarded_raise. intros out e'. apply display_raise.
Qed.

Lemma page_catches_every_error_witness :
  result (on_apply rt_interrupted default_options (u "select 1")) = Raise interrupt
  /\ is_Exception interrupt = false.
Proof.
  split; [reflexivity|].
  apply (@page_catches_every_error unit rt_interrupted default_options
           (u "select 1") interrupt). reflexivity.
Defined.

(** X3.  With sqlglot, in pretty mode, when parsing or printing fails and the
    retry fails as well, the page shows "Failed to format: " followed by the
    message of the first error, after the calls of the failed path and the one
    retry. *)
Theorem parse_failure_reaches_page
    (tree : Type) (rt : Runtime tree) (o : Options) (raw : str)
    (t1 : list call) (e1 e2 : exn) :
  HAVE_SQLGLOT rt = true ->
  compact o = false ->
  strip raw <> [] ->
  parse_then_print rt o (prepare o raw) = (t1, Raise e1) ->
  is_Exception e1 = true ->
  transpile rt (prepare o raw) (pretty_retry o) = Raise e2 ->
  is_Exception e2 = true ->
  on_apply rt o raw
  = (t1 ++ [Transpile (prepare o raw) (pretty_retry o)],
     Return (Failed (u "Failed to format: " ++ exn_str e1))).
Proof.
  intros G C N P E1 T E2.
  rewrite (on_apply_run rt o raw N). unfold format_sql. rewrite G.
  rewrite (format_with_sqlglot_retry_run rt o raw C P E1), T, E2.
  unfold trace, result, guarded, report. cbn [fst snd]. now rewrite E1.
Qed.

Lemma parse_failure_reaches_page_witness :
  on_apply rt_rejecting default_options (u "selec 1")
  = ([ParseOne (u "selec 1") spark;
      Transpile (u "selec 1") (pretty_retry default_options)],
     Return (Failed (u "Failed to format: Invalid expression / Unexpected token"))).
Proof.
  apply (@parse_failure_reaches_page unit rt_rejecting default_options
           (u "selec 1") [ParseOne (u "selec 1") spark] parse_error token_error);
    try reflexivity.
  vm_compute. discriminate.
Defined.

(** X4.  With sqlglot, a compact request never ends in a formatting error:
    the formatter raises no instance of [Exception]; so, for a text that is
    not blank, the page is what the display of the formatter's output gives,
    and a page with the failure message alone can only come from
    [out_container.code] raising on that output. *)
Theorem compact_never_reports_failure
    (tree : Type) (rt : Runtime tree) (o : Options) (raw : str) :
  HAVE_SQLGLOT rt = true ->
  compact o = true ->
  (forall e, result (format_sql rt o raw) = Raise e -> is_Exception e = false)
  /\ (strip raw <> [] ->
      match result (format_sql rt o raw) with
      | Return out => result (on_apply rt o raw) = display rt out
      | Raise b => result (on_apply rt o raw) = Raise b
      end)
  /\ (strip raw <> [] ->
      forall msg,
        result (on_apply rt o raw) = Return (Failed msg) ->
        exists out e,
          result (format_sql rt o raw) = Return out
          /\ st_code rt out = Raise e
          /\ is_Exception e = true
          /\ msg = report e).
Proof.
  intros G C.
  assert (F : forall e, result (format_sql rt o raw) = Raise e ->
                        is_Exception e = false).
  { intros e. unfold format_sql. rewrite G.
    rewrite (format_with_sqlglot_compact_run rt o raw C).
    unfold result. cbn [snd].
    destruct (transpile rt (prepare o raw) (compact_call o)) as [[|x l]|e'];
      try discriminate.
    destruct (is_Exception e') eqn:E; [discriminate|].
    intros H. inversion H; subst. exact E. }
  assert (R : strip raw <> [] ->
              match result (format_sql rt o raw) with
              | Return out => result (on_apply rt o raw) = display rt out
              | Raise b => result (on_apply rt o raw) = Raise b
              end).
  { intros N. rewrite (on_apply_run rt o raw N). unfold result at 2 4.
    cbn [snd]. destruct (result (format_sql rt o raw)) as [out|b] eqn:E.
    - reflexivity.
    - unfold guarded. now rewrite (F b eq_refl). }
  split; [exact F|]. split; [exact R|].
  intros N msg H. specialize (R N).
  destruct (result (format_sql rt o raw)) as [out|b]; [|congruence].
  rewrite R in H. apply display_failed in H. destruct H as (e & H1 & H2 & H3).
  now exists out, e.
Qed.

Lemma compact_never_reports_failure_witness :
  result (on_apply rt_rejecting compact_options (u "selec  1"))
  = display rt_rejecting (u "selec 1")
  /\ display rt_rejecting (u "selec 1") = Return (Formatted (u "selec 1")).
Proof.
  split; [|reflexivity].
  refine (proj1 (proj2 (@compact_never_reports_failure unit rt_rejecting
                          compact_options (u "selec  1") eq_refl eq_refl)) _).
  vm_compute. discriminate.
Defined.

(** X5.  With sqlglot, a compact request depends on the text, the dialect and
    the two comment switches only: the keyword and identifier cases, the
    indent, the width, the leading commas and the normalization make no
    difference to the calls made nor to the result. *)
Theorem compact_ignores_layout
    (tree : Type) (rt : Runtime tree) (o1 o2 : Options) (sql : str) :
  compact o1 = true ->
  compact o2 = true ->
  dialect o1 = dialect o2 ->
  remove_comments o1 = remove_comments o2 ->
  single_line_safe o1 = single_line_safe o2 ->
  format_with_sqlglot rt o1 sql = format_with_sqlglot rt o2 sql.
Proof.
  intros C1 C2 D R S.
  rewrite !format_with_sqlglot_compact by assumption.
  unfold prepare, compact_call. now rewrite D, R, S.
Qed.

Lemma compact_ignores_layout_witness :
  format_with_sqlglot rt_printing compact_options (u "select  1")
  = format_with_sqlglot rt_printing compact_fancy_options (u "select  1").
Proof.
  apply (@compact_ignores_layout str rt_printing compact_options
           compact_fancy_options (u "select  1"));
    reflexivity.
Defined.

(** X6.  The fallback reads the keyword case, the indent, the compact switch
    and the two comment switches only: the dialect, the identifier case, the
    width, the leading commas and the normalization make no difference, and in
    compact mode neither does the indent. *)
Theorem fallback_ignores_sqlglot_options
    (tree : Type) (rt : Runtime tree) (o1 o2 : Options) (sql : str) :
  keyword_case o1 = keyword_case o2 ->
  compact o1 = compact o2 ->
  remove_comments o1 = remove_comments o2 ->
  single_line_safe o1 = single_line_safe o2 ->
  (indent o1 = indent o2 \/ compact o1 = true) ->
  format_with_sqlparse rt o1 sql = format_with_sqlparse rt o2 sql.
Proof.
  intros K C R S I. unfold format_with_sqlparse, prepare.
  rewrite <- K, <- C, <- R, <- S.
  destruct (HAVE_SQLPARSE rt); cbn [negb]; [|reflexivity].
  destruct I as [I|I].
  - now rewrite I.
  - now rewrite I.
Qed.

Lemma fallback_ignores_sqlglot_options_witness :
  format_with_sqlparse rt_sqlparse_only default_options (u "select 1")
  = format_with_sqlparse rt_sqlparse_only tsql_options (u "select 1")
  /\ format_with_sqlparse rt_sqlparse_only compact_options (u "select 1")
     = format_with_sqlparse rt_sqlparse_only
         (with_keyword_case kw_upper compact_fancy_options) (u "select 1").
Proof.
  split.
  - apply (@fallback_ignores_sqlglot_options unit rt_sqlparse_only
             default_options tsql_options (u "select 1"));
      try reflexivity. left. reflexivity.
  - apply (@fallback_ignores_sqlglot_options unit rt_sqlparse_only
             compact_options (with_keyword_case kw_upper compact_fancy_options)
             (u "select 1"));
      try reflexivity. right. reflexivity.
Defined.

(** X7.  A request is served by one library only.  With sqlglot installed no
    call goes to sqlparse, whatever sqlglot does, and between one and three
    calls are made; without it every call goes to sqlparse, and there is at
    most one. *)
Theorem one_library_per_request
    (tree : Type) (rt : Runtime tree) (o : Options) (sql : str) :
  (HAVE_SQLGLOT rt = true ->
   existsb is_sqlparse (trace (format_sql rt o sql)) = false
   /\ 1 <= List.length (trace (format_sql rt o sql)) <= 3)
  /\ (HAVE_SQLGLOT rt = false ->
      forallb is_sqlparse (trace (format_sql rt o sql)) = true
      /\ List.length (trace (format_sql rt o sql)) <= 1).
Proof.
  split; intros G; unfold format_sql; rewrite G.
  - destruct (compact o) eqn:C.
    + rewrite (format_with_sqlglot_compact_run rt o sql C).
      cbn. split; [reflexivity|lia].
    + rewrite (format_with_sqlglot_pretty rt o sql C).
      destruct (parse_one rt (prepare o sql) (dialect o)) as [tr|e] eqn:P.
      * rewrite (parse_then_print_parsed rt o _ P).
        unfold try_except, transpile0, invoke, bind, index0, ret, raise, trace.
        destruct (tree_sql rt tr (print_args o)) as [out|e];
          [cbn; split; [reflexivity|lia]|].
        destruct (is_Exception e); [|cbn; split; [reflexivity|lia]].
        destruct (transpile rt (prepare o sql) (pretty_retry o)) as [[|x l]|e2];
          cbn; try (split; [reflexivity|lia]).
        destruct (is_Exception e2); cbn; split; (reflexivity || lia).
      * rewrite (parse_then_print_unparsed rt o _ P).
        unfold try_except, transpile0, invoke, bind, index0, ret, raise, trace.
        destruct (is_Exception e); [|cbn; split; [reflexivity|lia]].
        destruct (transpile rt (prepare o sql) (pretty_retry o)) as [[|x l]|e2];
          cbn; try (split; [reflexivity|lia]).
        destruct (is_Exception e2); cbn; split; (reflexivity || lia).
  - destruct (HAVE_SQLPARSE rt) eqn:P.
    + rewrite (format_with_sqlparse_call rt o sql P).
      cbn. split; [reflexivity|lia].
    + rewrite (format_with_sqlparse_missing rt o sql P).
      cbn. split; [reflexivity|lia].
Qed.

Lemma one_library_per_request_witness :
  existsb is_sqlparse (trace (format_sql rt_rejecting default_options (u "selec 1")))
  = false
  /\ forallb is_sqlparse
       (trace (format_sql rt_sqlparse_only default_options (u "selec 1")))
     = true.
Proof.
  split.
  - apply (proj1 (@one_library_per_request unit rt_rejecting default_options
                    (u "selec 1")) eq_refl).
  - apply (proj2 (@one_library_per_request unit rt_sqlparse_only default_options
                    (u "selec 1")) eq_refl).
Defined.

(** X8.  With sqlglot, in pretty mode, when parsing returns a tree and
    printing it returns a text, that text is the result after these two calls
    and the transpile entry point is not called; the printer receives the
    identifier case only when it is not "preserve". *)
Theorem pretty_success_two_calls
    (tree : Type) (rt : Runtime tree) (o : Options) (sql : str)
    (tr : tree) (out : str) :
  compact o = false ->
  parse_one rt (prepare o sql) (dialect o) = Return tr ->
  tree_sql rt tr (print_args o) = Return out ->
  format_with_sqlglot rt o sql
  = ([ParseOne (prepare o sql) (dialect o); TreeSql (print_args o)], Return out)
  /\ (a_identifier_case (print_args o) = None <-> identifier_case o = id_preserve)
  /\ (forall k, identifier_case o = k -> k <> id_preserve ->
                a_identifier_case (print_args o) = Some (identifier_case_str k)).
Proof.
  intros C P T. split; [|split].
  - rewrite (format_with_sqlglot_pretty rt o sql C).
    rewrite (parse_then_print_parsed rt o _ P), T. reflexivity.
  - unfold print_args. cbn [a_identifier_case].
    destruct (identifier_case o); cbn; split; congruence.
  - intros k <- N. unfold print_args. cbn [a_identifier_case].
    destruct (identifier_case o); [congruence| |]; reflexivity.
Qed.

Lemma pretty_success_two_calls_witness :
  format_with_sqlglot rt_printing tsql_options (u "select 1")
  = ([ParseOne (u "select 1") tsql; TreeSql (print_args tsql_options)],
     Return (u "SELECT 1")).
Proof.
  apply (proj1 (@pretty_success_two_calls str rt_printing tsql_options
                  (u "select 1") (u "select 1") (u "SELECT 1")
                  eq_refl eq_refl eq_refl)).
Defined.

(** ** Further properties of the two comment passes *)

Section MoreComments.

Lemma dropwhile_incl p s c : In c (dropwhile p s) -> In c s.
Proof.
  induction s as [|x s IH]; [easy|]. cbn [dropwhile].
  destruct (p x); [|easy]. intros H. right. now apply IH.
Qed.

(** Trimming only removes characters. *)
Lemma strip_incl s c : In c (strip s) -> In c s.
Proof.
  unfold strip, rstrip, lstrip. intros H.
  apply in_rev, dropwhile_incl in H. apply in_rev in H.
  now apply dropwhile_incl in H.
Qed.

Lemma dash_to_block_join ls :
  dash_to_block (join [LF] ls) = join [LF] (map dash_to_block ls).
Proof.
  induction ls as [|p [|q r] IH]; [reflexivity|reflexivity|].
  change (join [LF] (p :: q :: r)) with (p ++ LF :: join [LF] (q :: r)).
  rewrite dash_to_block_newline, IH. reflexivity.
Qed.

Lemma dash_to_block_keeps_line l : ~ In LF l -> ~ In LF (dash_to_block l).
Proof.
  induction l as [|c l IH]; intros H; [easy|].
  destruct (startswith (u "--") (c :: l)) eqn:E.
  - apply startswith_split in E. destruct E as [t E]. rewrite E in *.
    assert (Ht : ~ In LF t).
    { intros I. apply H. apply in_or_app. now right. }
    rewrite dash_to_block_marker.
    destruct (line_head_whole _ Ht) as [-> ->]. rewrite dash_to_block_nil.
    intros I. apply in_app_or in I. destruct I as [I|I].
    { vm_compute in I. repeat (destruct I as [I|I]; [discriminate I|]). exact I. }
    apply in_app_or in I. destruct I as [I|I].
    { apply Ht. now apply strip_incl. }
    rewrite app_nil_r in I.
    vm_compute in I. repeat (destruct I as [I|I]; [discriminate I|]). exact I.
  - rewrite dash_to_block_copy by exact E.
    intros [I|I].
    + apply H. now left.
    + apply IH; [|exact I]. intros J. apply H. now right.
Qed.

Lemma BlockStripped_length s out :
  BlockStripped s out -> List.length out <= List.length s.
Proof.
  induction 1 as [|c s out _ _ IH|body rest out _ _ IH|t _]; [lia| | |lia].
  - simpl. lia.
  - rewrite !length_app. simpl. lia.
Qed.

Lemma strip_block_length s :
  List.length (strip_block_comments s) <= List.length s.
Proof. apply BlockStripped_length, strip_block_spec. Qed.

(** The output starts with a star only where the input does. *)
Lemma BlockStripped_star s out :
  BlockStripped s out ->
  startswith [STAR] out = true -> startswith [STAR] s = true.
Proof.
  destruct 1 as [|c s out _ _|body rest out _ _|t _]; try easy.
Qed.

Lemma BlockStripped_fixed s out :
  BlockStripped s out -> strip_block_comments out = out.
Proof.
  induction 1 as [|c s out Hc Hs IH|body rest out _ _ IH|t Ht].
  - reflexivity.
  - rewrite strip_block_copy; [now rewrite IH|].
    rewrite u_open in *. cbn [startswith] in *.
    destruct (SLASH =? c)%N; [|reflexivity]. cbn [andb] in *.
    destruct (startswith [STAR] out) eqn:E.
    + apply (BlockStripped_star Hs) in E.
      destruct s as [|d s]; [discriminate|]. cbn [startswith] in E.
      rewrite andb_true_r in *. congruence.
    + destruct out as [|d out]; [reflexivity|]. cbn [startswith] in E.
      now rewrite andb_true_r in *.
  - rewrite strip_block_copy by reflexivity. now rewrite IH.
  - now apply strip_block_unclosed.
Qed.

(** Where a terminated comment is left, the pass shortens the text. *)
Lemma strip_block_shrinks a t :
  contains (u "*/") t = true ->
  List.length (strip_block_comments (a ++ u "/*" ++ t))
  < List.length (a ++ u "/*" ++ t).
Proof.
  intros Ht.
  assert (Open : forall t', contains (u "*/") t' = true ->
            List.length (strip_block_comments (u "/*" ++ t'))
            < List.length (u "/*" ++ t')).
  { intros t' H. destruct (first_close _ H) as (body & rest & -> & Hb).
    rewrite strip_block_comment by exact Hb.
    pose proof (strip_block_length rest).
    rewrite !length_app. simpl. lia. }
  induction a as [|c a IH].
  - rewrite app_nil_l. now apply Open.
  - rewrite <- app_comm_cons.
    destruct (startswith (u "/*") (c :: a ++ u "/*" ++ t)) eqn:E.
    + apply startswith_split in E. destruct E as [t' E]. rewrite E.
      apply Open. rewrite u_open in E. cbn [app] in E. inversion E; subst.
      destruct a as [|d a]; cbn [app] in H1; inversion H1; subst.
      apply contains_app_r.
      now apply (contains_app_r (u "*/") [SLASH; STAR] t).
    + rewrite strip_block_copy by exact E. cbn [List.length]. lia.
Qed.

End MoreComments.

(** X9.  [dash_to_block] works line by line: rewriting a text made of lines
    joined by newlines gives the rewritten lines joined by newlines, and a
    line without newline is rewritten into a line without newline, so the
    number of lines does not change. *)
Theorem dash_to_block_line_by_line :
  (forall ls, dash_to_block (join [LF] ls) = join [LF] (map dash_to_block ls))
  /\ (forall l, ~ In LF l -> ~ In LF (dash_to_block l)).
Proof.
  split.
  - apply dash_to_block_join.
  - apply dash_to_block_keeps_line.
Qed.

Lemma dash_to_block_line_by_line_witness :
  ~ In LF (dash_to_block (u "select 1 -- one -- two")).
Proof.
  apply (proj2 dash_to_block_line_by_line (u "select 1 -- one -- two")).
  vm_compute. intros H.
  repeat (destruct H as [H|H]; [discriminate H|]). exact H.
Defined.

(** X11.  The block-comment pass is idempotent and never lengthens the
    text. *)
Theorem strip_block_comments_idempotent (s : str) :
  strip_block_comments (strip_block_comments s) = strip_block_comments s
  /\ List.length (strip_block_comments s) <= List.length s.
Proof.
  split.
  - apply (BlockStripped_fixed (strip_block_spec s)).
  - apply strip_block_length.
Qed.

(** X12.  After the block-comment pass no terminated block comment is left:
    the output never has an opening delimiter followed, anywhere later, by a
    closing delimiter. *)
Theorem strip_block_comments_leaves_none (s a b c : str) :
  strip_block_comments s <> a ++ u "/*" ++ b ++ u "*/" ++ c.
Proof.
  intros E.
  assert (C : contains (u "*/") (b ++ u "*/" ++ c) = true).
  { apply contains_iff. now exists b, c. }
  pose proof (strip_block_shrinks a _ C) as L.
  rewrite <- E in L.
  rewrite (BlockStripped_fixed (strip_block_spec s)) in L. lia.
Qed.

(** X16.  [dash_to_block] leaves a text as it is exactly when the text has
    no double hyphen. *)
Theorem dash_to_block_fixed_points (s : str) :
  dash_to_block s = s <-> contains (u "--") s = false.
Proof.
  split.
  - intros H. destruct (contains (u "--") s) eqn:E; [|reflexivity].
    now apply dash_to_block_changes in E.
  - apply dash_to_block_fixed.
Qed.

(** ** Further properties of lines and words *)

Section MoreLines.

Lemma forallb_rev (f : char -> bool) l : forallb f (rev l) = forallb f l.
Proof.
  induction l as [|c l IH]; [reflexivity|].
  cbn [rev forallb]. rewrite forallb_app, IH. cbn [forallb].
  rewrite andb_true_r. apply andb_comm.
Qed.

Lemma rev_nil_inv (l : str) : rev l = [] -> l = [].
Proof.
  intros H. apply (f_equal (@rev char)) in H. now rewrite rev_involutive in H.
Qed.

(** No line of [splitlines] holds a line boundary. *)
Lemma splitlines_from_clean :
  forall n s cur,
    List.length s = n ->
    forallb (fun c => negb (islinebreak c)) cur = true ->
    Forall (fun l => forallb (fun c => negb (islinebreak c)) l = true)
      (splitlines_from cur s).
Proof.
  induction n as [n IH] using lt_wf_ind. intros s cur Hn Hcur.
  assert (Hrev : forallb (fun c => negb (islinebreak c)) (rev cur) = true)
    by now rewrite forallb_rev.
  destruct s as [|c s]; cbn [splitlines_from].
  - destruct cur; [constructor|]. now repeat constructor.
  - simpl in Hn. destruct (c =? CR)%N.
    + destruct s as [|d s].
      * constructor; [exact Hrev|]. constructor.
      * simpl in Hn. destruct (d =? LF)%N; constructor; try exact Hrev.
        -- apply (IH (List.length s)); [lia|reflexivity|reflexivity].
        -- apply (IH (S (List.length s))); [lia|reflexivity|reflexivity].
    + destruct (islinebreak c) eqn:E.
      * constructor; [exact Hrev|].
        apply (IH (List.length s)); [lia|reflexivity|reflexivity].
      * apply (IH (List.length s)); [lia|reflexivity|].
        cbn [forallb]. now rewrite E, Hcur.
Qed.

(** A text without line boundary is one line, or none when it is empty. *)
Lemma splitlines_from_single p :
  forallb (fun c => negb (islinebreak c)) p = true ->
  forall cur,
    splitlines_from cur p
    = match rev cur ++ p with [] => [] | l => [l] end.
Proof.
  induction p as [|c p IH]; intros H cur.
  - rewrite app_nil_r. cbn [splitlines_from].
    destruct cur as [|x cur]; [reflexivity|].
    destruct (rev (x :: cur)) eqn:E; [|reflexivity].
    apply rev_nil_inv in E. discriminate.
  - cbn [forallb] in H. apply andb_true_iff in H. destruct H as [Hc Hp].
    apply negb_true_iff in Hc. cbn [splitlines_from].
    destruct (N.eqb_spec c CR) as [->|_]; [discriminate|].
    rewrite Hc, (IH Hp). cbn [rev]. now rewrite <- app_assoc.
Qed.

Lemma splitlines_join_incl ls :
  Forall (fun l => forallb (fun c => negb (islinebreak c)) l = true) ls ->
  forall ln, In ln (splitlines (join [LF] ls)) -> In ln ls.
Proof.
  induction ls as [|p [|q r] IH]; intros H ln I.
  - destruct I.
  - inversion H as [|? ? Hp _]; subst. unfold splitlines in I. cbn [join] in I.
    rewrite (splitlines_from_single _ Hp) in I. cbn [rev app] in I.
    destruct p; [destruct I|]. exact I.
  - inversion H as [|? ? Hp Hr]; subst.
    change (join [LF] (p :: q :: r)) with (p ++ LF :: join [LF] (q :: r)) in I.
    unfold splitlines in I. rewrite (splitlines_from_line [] _ _ Hp) in I.
    destruct I as [I|I]; [now left|]. right. now apply IH.
Qed.

(** After the line pass, no line begins with a double hyphen. *)
Lemma drop_comment_lines_clean sql ln :
  In ln (splitlines (drop_comment_lines sql)) -> comment_only_line ln = false.
Proof.
  rewrite drop_comment_lines_spec. intros I.
  apply splitlines_join_incl in I.
  - apply filter_In in I. now apply negb_true_iff.
  - apply Forall_forall. intros l Hl. apply filter_In in Hl.
    destruct Hl as [Hl _]. revert l Hl. apply Forall_forall.
    now apply (splitlines_from_clean (n := List.length sql)).
Qed.

Lemma split_from_words s :
  forall cur,
    forallb (fun c => negb (isspace c)) cur = true ->
    Forall is_word (split_from cur s).
Proof.
  induction s as [|c s IH]; intros cur H; cbn [split_from].
  - destruct cur as [|x cur]; [constructor|]. repeat constructor.
    + intros E. apply rev_nil_inv in E. discriminate.
    + now rewrite forallb_rev.
  - destruct (isspace c) eqn:E.
    + destruct cur as [|x cur]; [now apply IH|].
      constructor; [|now apply IH]. split.
      * intros R. apply rev_nil_inv in R. discriminate.
      * now rewrite forallb_rev.
    + apply IH. cbn [forallb]. now rewrite E, H.
Qed.

Lemma split_from_word_app w :
  forallb (fun c => negb (isspace c)) w = true ->
  forall cur x, split_from cur (w ++ x) = split_from (rev w ++ cur) x.
Proof.
  induction w as [|c w IH]; intros H cur x; [reflexivity|].
  cbn [forallb] in H. apply andb_true_iff in H. destruct H as [Hc Hw].
  apply negb_true_iff in Hc. rewrite <- app_comm_cons. cbn [split_from].
  rewrite Hc, (IH Hw). cbn [rev]. now rewrite <- app_assoc.
Qed.

(** Splitting what was joined by single spaces gives the words back. *)
Lemma split_join ws : Forall is_word ws -> split (join [SP] ws) = ws.
Proof.
  unfold split.
  induction ws as [|w [|w2 r] IH]; intros H; [reflexivity| |].
  - inversion H as [|? ? [Hn Hw] _]; subst. cbn [join].
    rewrite <- (app_nil_r w) at 1. rewrite (split_from_word_app _ Hw).
    rewrite app_nil_r. cbn [split_from].
    destruct (rev w) eqn:E; [apply rev_nil_inv in E; congruence|].
    now rewrite <- E, rev_involutive.
  - inversion H as [|? ? [Hn Hw] Hr]; subst.
    change (join [SP] (w :: w2 :: r)) with (w ++ SP :: join [SP] (w2 :: r)).
    rewrite (split_from_word_app _ Hw), app_nil_r. cbn [split_from].
    change (isspace SP) with true. cbn iota.
    destruct (rev w) eqn:E; [apply rev_nil_inv in E; congruence|].
    rewrite <- E, rev_involutive. f_equal. now apply IH.
Qed.

End MoreLines.

(** X13.  With [remove_comments] set, no line of the text handed to the
    library begins (after whitespace) with a double hyphen. *)
Theorem no_comment_line_reaches_library
    (tree : Type) (rt : Runtime tree) (o : Options) (sql : str) :
  remove_comments o = true ->
  (forall ln, In ln (splitlines (prepare o sql)) -> comment_only_line ln = false)
  /\ hands_over (prepare o sql) (format_sql rt o sql).
Proof.
  intros R. split; [|apply format_sql_hands_over].
  intros ln. unfold prepare. rewrite R. apply drop_comment_lines_clean.
Qed.

Lemma no_comment_line_reaches_library_witness :
  forallb (fun ln => negb (comment_only_line ln))
    (splitlines (prepare stripping_options
                   (u "-- one" ++ [LF] ++ u "select 1 /* x" ++ [LF] ++ u "*/ -- two"
                      ++ [CR; LF] ++ u "  -- three" ++ [LF] ++ u "from t")))
  = true.
Proof.
  apply forallb_forall. intros ln I. apply negb_true_iff. revert ln I.
  apply (proj1 (@no_comment_line_reaches_library unit rt_rejecting
                  stripping_options _ eq_refl)).
Defined.

(** X15.  The best-effort minifier [" ".join(sql.split())] keeps the words of
    the text, and applying it to its own output changes nothing. *)
Theorem minify_keeps_words (s : str) :
  split (join [SP] (split s)) = split s
  /\ join [SP] (split (join [SP] (split s))) = join [SP] (split s).
Proof.
  assert (E : split (join [SP] (split s)) = split s).
  { apply split_join. now apply split_from_words. }
  split; [exact E|]. now rewrite E.
Qed.

(** ** The shape of the minified text, and the two switches together *)

Section MoreShape.

Lemma islinebreak_isspace c : islinebreak c = true -> isspace c = true.
Proof.
  unfold islinebreak. intros H.
  assert (D : (c = 10 \/ c = 11 \/ c = 12 \/ c = 13 \/ c = 28 \/ c = 29
               \/ c = 30 \/ c = 133 \/ c = 8232 \/ c = 8233)%N).
  { rewrite !orb_true_iff, !andb_true_iff, !N.leb_le, !N.eqb_eq in H. lia. }
  repeat (destruct D as [D|D]; [subst c; reflexivity|]).
  subst c. reflexivity.
Qed.

Lemma nonspace_not_SP c : isspace c = false -> (SP =? c)%N = false.
Proof.
  intros H. destruct (N.eqb_spec SP c) as [<-|_]; [discriminate|reflexivity].
Qed.

Lemma In_join sep ws c :
  In c (join sep ws) -> In c sep \/ exists w, In w ws /\ In c w.
Proof.
  induction ws as [|w [|w2 r] IH]; intros H.
  - destruct H.
  - right. exists w. split; [now left|exact H].
  - change (join sep (w :: w2 :: r)) with (w ++ sep ++ join sep (w2 :: r)) in H.
    apply in_app_or in H. destruct H as [H|H].
    + right. exists w. split; [now left|exact H].
    + apply in_app_or in H. destruct H as [H|H]; [now left|].
      destruct (IH H) as [I|(w' & Hw & Hc)]; [now left|].
      right. exists w'. split; [now right|exact Hc].
Qed.

Lemma join_words_start ws : Forall is_word ws -> starts_with_ink (join [SP] ws) = true.
Proof.
  intros H. destruct ws as [|w r]; [reflexivity|].
  inversion H as [|? ? [Hn Hw] _]; subst.
  destruct w as [|c w]; [congruence|].
  cbn [forallb] in Hw. apply andb_true_iff in Hw.
  destruct r; cbn [join app starts_with_ink]; easy.
Qed.

Lemma join_words_nonempty w r : is_word w -> join [SP] (w :: r) <> [].
Proof.
  intros [Hn _]. destruct w; [congruence|]. destruct r; discriminate.
Qed.

Lemma word_then_space w x :
  forallb (fun c => negb (isspace c)) w = true ->
  starts_with_ink x = true ->
  contains [SP; SP] x = false ->
  contains [SP; SP] (w ++ SP :: x) = false.
Proof.
  intros Hw Hx Hc. induction w as [|c w IH].
  - rewrite app_nil_l, contains_cons, Hc, orb_false_r.
    cbn [startswith]. change (SP =? SP)%N with true. cbn [andb].
    destruct x as [|d x]; [reflexivity|].
    cbn [starts_with_ink] in Hx. apply negb_true_iff in Hx.
    now rewrite (nonspace_not_SP _ Hx).
  - cbn [forallb] in Hw. apply andb_true_iff in Hw. destruct Hw as [H1 H2].
    apply negb_true_iff in H1.
    rewrite <- app_comm_cons, contains_cons, (IH H2), orb_false_r.
    cbn [startswith]. now rewrite (nonspace_not_SP _ H1).
Qed.

Lemma word_no_double_space w :
  forallb (fun c => negb (isspace c)) w = true -> contains [SP; SP] w = false.
Proof.
  induction w as [|c w IH]; intros H; [reflexivity|].
  cbn [forallb] in H. apply andb_true_iff in H. destruct H as [H1 H2].
  apply negb_true_iff in H1. rewrite contains_cons, (IH H2), orb_false_r.
  cbn [startswith]. now rewrite (nonspace_not_SP _ H1).
Qed.

Lemma join_words_single_spaces ws :
  Forall is_word ws -> contains [SP; SP] (join [SP] ws) = false.
Proof.
  induction ws as [|w [|w2 r] IH]; intros H; [reflexivity| |].
  - inversion H as [|? ? [_ Hw] _]; subst. now apply word_no_double_space.
  - inversion H as [|? ? [_ Hw] Hr]; subst.
    change (join [SP] (w :: w2 :: r)) with (w ++ SP :: join [SP] (w2 :: r)).
    apply word_then_space; [exact Hw|now apply join_words_start|now apply IH].
Qed.

Lemma rstrip_app_fixed y x :
  rstrip x = x -> x <> [] -> rstrip (y ++ x) = y ++ x.
Proof.
  intros Hx Hn. induction y as [|c y IH]; [exact Hx|].
  rewrite <- app_comm_cons, rstrip_cons, IH.
  destruct (y ++ x) eqn:E; [|reflexivity].
  apply app_eq_nil in E. now destruct E.
Qed.

Lemma rstrip_word w :
  forallb (fun c => negb (isspace c)) w = true -> rstrip w = w.
Proof.
  induction w as [|c w IH]; intros H; [reflexivity|].
  cbn [forallb] in H. apply andb_true_iff in H. destruct H as [H1 H2].
  apply negb_true_iff in H1.
  now rewrite rstrip_cons_nonspace, IH.
Qed.

Lemma join_words_rstrip ws :
  Forall is_word ws -> rstrip (join [SP] ws) = join [SP] ws.
Proof.
  induction ws as [|w [|w2 r] IH]; intros H; [reflexivity| |].
  - inversion H as [|? ? [_ Hw] _]; subst. now apply rstrip_word.
  - inversion H as [|? ? Hw Hr]; subst.
    change (join [SP] (w :: w2 :: r)) with (w ++ [SP] ++ join [SP] (w2 :: r)).
    inversion Hr as [|? ? Hw2 _]; subst.
    apply rstrip_app_fixed.
    + apply rstrip_app_fixed; [now apply IH|now apply join_words_nonempty].
    + discriminate.
Qed.

Lemma lstrip_ink x : starts_with_ink x = true -> lstrip x = x.
Proof.
  destruct x as [|c x]; [reflexivity|]. cbn [starts_with_ink].
  intros H. apply negb_true_iff in H. unfold lstrip. cbn [dropwhile].
  now rewrite H.
Qed.

End MoreShape.

(** X14.  The best-effort minifier [" ".join(sql.split())] returns one line
    with single spaces: its only whitespace characters are spaces, never two
    in a row and none at either end, and it holds no line boundary. *)
Theorem minify_single_spaced (s : str) :
  let out := join [SP] (split s) in
  (forall c, In c out -> isspace c = true -> c = SP)
  /\ contains [SP; SP] out = false
  /\ strip out = out
  /\ forallb (fun c => negb (islinebreak c)) out = true.
Proof.
  intros out.
  assert (W : Forall is_word (split s)) by now apply split_from_words.
  assert (A : forall c, In c out -> isspace c = true -> c = SP).
  { intros c I Hc. apply In_join in I. destruct I as [[I|[]]|(w & Hw & I)].
    - now symmetry.
    - rewrite Forall_forall in W. destruct (W w Hw) as [_ F].
      rewrite forallb_forall in F. apply F in I. now rewrite Hc in I. }
  split; [exact A|]. split; [now apply join_words_single_spaces|]. split.
  - unfold strip. rewrite lstrip_ink by now apply join_words_start.
    now apply join_words_rstrip.
  - apply forallb_forall. intros c I. apply negb_true_iff.
    destruct (islinebreak c) eqn:L; [|reflexivity].
    pose proof (A c I (islinebreak_isspace c L)) as E. subst c. discriminate L.
Qed.

Section MoreSwitches.

Lemma strip_block_after_plain pre y :
  contains (u "/*") pre = false ->
  strip_block_comments (pre ++ u "/*" ++ y)
  = pre ++ strip_block_comments (u "/*" ++ y).
Proof.
  induction pre as [|c pre IH]; intros H; [reflexivity|].
  rewrite contains_cons in H. apply orb_false_iff in H. destruct H as [H1 H2].
  rewrite <- !app_comm_cons. rewrite strip_block_copy; [now rewrite IH|].
  destruct pre as [|d pre].
  - rewrite u_open. cbn [app startswith]. destruct (SLASH =? c)%N; reflexivity.
  - rewrite app_comm_cons, startswith_prefix; [exact H1|simpl; lia].
Qed.

Lemma no_close_padded body :
  contains (u "*/") body = false ->
  contains (u "*/") ((SP :: body ++ [SP]) ++ [STAR]) = false.
Proof.
  intros H. rewrite <- app_comm_cons, contains_cons.
  replace (startswith (u "*/") (SP :: (body ++ [SP]) ++ [STAR])) with false
    by reflexivity.
  cbn [orb]. rewrite <- app_assoc. cbn [app].
  induction body as [|c body IH]; [reflexivity|].
  rewrite contains_cons in H. apply orb_false_iff in H. destruct H as [H1 H2].
  rewrite <- app_comm_cons, contains_cons, (IH H2), orb_false_r.
  destruct body as [|d body].
  - rewrite u_close. cbn [app startswith]. destruct (STAR =? c)%N; reflexivity.
  - rewrite app_comm_cons, startswith_prefix; [exact H1|simpl; lia].
Qed.

Lemma contains_dashes_snoc_space pre :
  contains (u "--") (pre ++ [SP]) = contains (u "--") pre.
Proof.
  induction pre as [|c pre IH]; [reflexivity|].
  rewrite <- app_comm_cons, !contains_cons, IH. f_equal.
  destruct pre as [|d pre].
  - rewrite u_dashes. cbn [app startswith].
    destruct (HYPHEN =? c)%N; reflexivity.
  - rewrite app_comm_cons, startswith_prefix; [reflexivity|simpl; lia].
Qed.

Lemma lstrip_suffix x : exists w, x = w ++ lstrip x.
Proof.
  unfold lstrip. induction x as [|c x [w IH]]; [now exists []|].
  cbn [dropwhile]. destruct (isspace c).
  - exists (c :: w). cbn [app]. now rewrite <- IH.
  - now exists [].
Qed.

Lemma comment_only_contains ln :
  comment_only_line ln = true -> contains (u "--") ln = true.
Proof.
  unfold comment_only_line. intros H.
  destruct (lstrip_suffix ln) as [w E]. rewrite E.
  apply contains_app_r. apply startswith_split in H. destruct H as [t ->].
  apply contains_iff. now exists [], t.
Qed.

(** The line pass keeps a single line that holds no double hyphen. *)
Lemma drop_comment_lines_plain_line l :
  l <> [] ->
  forallb (fun c => negb (islinebreak c)) l = true ->
  contains (u "--") l = false ->
  drop_comment_lines l = l.
Proof.
  intros Hn Hl Hd. rewrite drop_comment_lines_spec. unfold splitlines.
  rewrite (splitlines_from_single _ Hl). cbn [rev app].
  destruct l as [|c l]; [congruence|]. cbn [filter].
  destruct (comment_only_line (c :: l)) eqn:E; [|reflexivity].
  apply comment_only_contains in E. congruence.
Qed.

End MoreSwitches.

(** X10.  With both comment switches on, an end-of-line comment is removed
    altogether: for a one-line text [pre ++ "--" ++ rest], where [pre] holds
    no double hyphen and opens no block comment and the comment text holds no
    closing delimiter, the library receives [pre] followed by one space.  (With
    the rewriting switch off the same comment would stay.) *)
Theorem both_switches_remove_trailing_comment
    (tree : Type) (rt : Runtime tree) (o : Options) (pre rest : str) :
  single_line_safe o = true ->
  remove_comments o = true ->
  forallb (fun c => negb (islinebreak c)) pre = true ->
  contains (u "--") (pre ++ [HYPHEN]) = false ->
  contains (u "/*") pre = false ->
  ~ In LF rest ->
  contains (u "*/") (strip rest) = false ->
  prepare o (pre ++ u "--" ++ rest) = pre ++ [SP]
  /\ hands_over (pre ++ [SP]) (format_sql rt o (pre ++ u "--" ++ rest)).
Proof.
  intros S R Hl Hd Ho Hr Hc.
  assert (P : prepare o (pre ++ u "--" ++ rest) = pre ++ [SP]).
  { unfold prepare. rewrite S, R.
    rewrite (dash_to_block_one_line pre rest Hd Hr).
    replace (pre ++ u "/* " ++ strip rest ++ u " */")
      with (pre ++ u "/*" ++ (SP :: strip rest ++ [SP]) ++ u "*/" ++ [])
      by (cbn [app]; change (u "/* ") with (u "/*" ++ [SP]);
          change (u " */") with ([SP] ++ u "*/");
          now rewrite <- !app_assoc, ?app_nil_r).
    rewrite (strip_block_after_plain pre _ Ho).
    rewrite (strip_block_comment _ [] (no_close_padded _ Hc)).
    rewrite strip_block_nil.
    apply drop_comment_lines_plain_line.
    - now destruct pre.
    - rewrite forallb_app, Hl. reflexivity.
    - rewrite contains_dashes_snoc_space.
      now apply contains_false_app_l in Hd. }
  split; [exact P|]. rewrite <- P. apply format_sql_hands_over.
Qed.

Lemma both_switches_remove_trailing_comment_witness :
  prepare safe_stripping_options (u "select 1" ++ u "--" ++ u " trailing note")
  = u "select 1" ++ [SP].
Proof.
  apply (proj1 (@both_switches_remove_trailing_comment unit rt_rejecting
                  safe_stripping_options (u "select 1") (u " trailing note")
                  eq_refl eq_refl eq_refl eq_refl eq_refl
                  (fun H => ltac:(vm_compute in H;
                                  repeat (destruct H as [H|H]; [discriminate H|]);
                                  exact H))
                  eq_refl)).
Defined.

(** X17.  With both comment switches off, every text a library receives is
    the text of the request, unchanged. *)
Theorem text_untouched_without_switches
    (tree : Type) (rt : Runtime tree) (o : Options) (sql : str) :
  single_line_safe o = false ->
  remove_comments o = false ->
  hands_over sql (format_sql rt o sql).
Proof.
  intros S R. pose proof (format_sql_hands_over rt o sql) as H.
  unfold prepare in H. now rewrite S, R in H.
Qed.

Lemma text_untouched_without_switches_witness :
  hands_over (u "select 1 -- note /* x */")
    (format_sql rt_rejecting default_options (u "select 1 -- note /* x */")).
Proof.
  apply (@text_untouched_without_switches unit rt_rejecting default_options
           (u "select 1 -- note /* x */")); reflexivity.
Defined.

(** X18.  Only errors are recovered.  An exception that is no instance of
    [Exception] (an interrupt, say) raised by the compact call, by the parse
    or by the retry of the pretty path leaves [format_with_sqlglot] as it is:
    no recovery by whitespace collapsing, no retry, and no replacement by the
    first error. *)
Theorem signals_pass_through
    (tree : Type) (rt : Runtime tree) (o : Options) (sql : str) (b : exn) :
  is_Exception b = false ->
  (compact o = true ->
   transpile rt (prepare o sql) (compact_call o) = Raise b ->
   format_with_sqlglot rt o sql
   = ([Transpile (prepare o sql) (compact_call o)], Raise b))
  /\ (compact o = false ->
      parse_one rt (prepare o sql) (dialect o) = Raise b ->
      format_with_sqlglot rt o sql
      = ([ParseOne (prepare o sql) (dialect o)], Raise b))
  /\ (forall t1 e1,
        compact o = false ->
        parse_then_print rt o (prepare o sql) = (t1, Raise e1) ->
        is_Exception e1 = true ->
        transpile rt (prepare o sql) (pretty_retry o) = Raise b ->
        result (format_with_sqlglot rt o sql) = Raise b).
Proof.
  intros B. split; [|split].
  - intros C T. rewrite (format_with_sqlglot_compact_run rt o sql C), T.
    now rewrite B.
  - intros C P. rewrite (format_with_sqlglot_pretty rt o sql C).
    rewrite (parse_then_print_unparsed rt o _ P).
    unfold try_except. now rewrite B.
  - intros t1 e1 C P E1 T.
    rewrite (format_with_sqlglot_retry_run rt o sql C P E1), T.
    unfold result. cbn [snd]. now rewrite B.
Qed.

Lemma signals_pass_through_witness :
  format_with_sqlglot rt_interrupted compact_options (u "select 1")
  = ([Transpile (u "select 1") (compact_call compact_options)], Raise interrupt)
  /\ format_with_sqlglot rt_interrupted default_options (u "select 1")
     = ([ParseOne (u "select 1") spark], Raise interrupt).
Proof.
  split.
  - apply (proj1 (@signals_pass_through unit rt_interrupted compact_options
                    (u "select 1") interrupt eq_refl)); reflexivity.
  - apply (proj1 (proj2 (@signals_pass_through unit rt_interrupted default_options
                           (u "select 1") interrupt eq_refl))); reflexivity.
Defined.

(** X19.  Without sqlglot and with sqlparse, a text that is not blank is
    answered by one call to [sqlparse.format], whose keyword case is "lower"
    for lower and "upper" otherwise, which reindents unless the request is
    compact and is given the indent only then; the text the call returns is
    then displayed, and an error it raises is shown as the failure: the
    fallback has no recovery, in compact mode either. *)
Theorem fallback_single_call
    (tree : Type) (rt : Runtime tree) (o : Options) (raw : str) :
  HAVE_SQLGLOT rt = false ->
  HAVE_SQLPARSE rt = true ->
  strip raw <> [] ->
  let kw := match keyword_case o with kw_lower => u "lower" | _ => u "upper" end in
  let args := fallback_call kw o in
  on_apply rt o raw
  = ([SqlparseFormat (prepare o raw) args],
     match sqlparse_format rt (prepare o raw) args with
     | Return out => display rt out
     | Raise e =>
         if is_Exception e
         then Return (Failed (u "Failed to format: " ++ exn_str e))
         else Raise e
     end).
Proof.
  intros G P N kw args. rewrite (on_apply_run rt o raw N).
  unfold format_sql. rewrite G, (format_with_sqlparse_call rt o raw P).
  reflexivity.
Qed.

Lemma fallback_single_call_witness :
  on_apply rt_sqlparse_only
    (with_keyword_case kw_lower compact_options) (u "select 1")
  = ([SqlparseFormat (u "select 1")
        {| f_keyword_case := u "lower"; f_reindent := false;
           f_indent_width := None; f_strip_comments := false |}],
     Return (Formatted (u "select 1"))).
Proof.
  apply (@fallback_single_call unit rt_sqlparse_only
           (with_keyword_case kw_lower compact_options) (u "select 1")
           eq_refl eq_refl).
  vm_compute. discriminate.
Defined.

(** X20.  The display of the result runs inside the same [try] as the
    formatter.  When the formatted text holds a surrogate code point, it is
    shown, its encoding for the download raises, and the page ends with the
    failure message, without download button; when it holds none and the
    three page elements return, the page shows the text, offers it for
    download as UTF-8 under the name "formatted_<stamp>.sql", and shows the
    success. *)
Theorem display_inside_try
    (tree : Type) (rt : Runtime tree) (o : Options) (raw out : str) :
  strip raw <> [] ->
  result (format_sql rt o raw) = Return out ->
  st_code rt out = Return tt ->
  (existsb is_surrogate out = true ->
   on_apply rt o raw
   = (trace (format_sql rt o raw),
      Return (Halted out false
                (u "Failed to format: " ++ codec_message rt out))))
  /\ (existsb is_surrogate out = false ->
      st_download_button rt (List.concat (map utf8_bytes out))
        (u "formatted_" ++ timestamp rt ++ u ".sql") = Return tt ->
      st_success rt = Return tt ->
      on_apply rt o raw = (trace (format_sql rt o raw), Return (Formatted out))).
Proof.
  intros N F S. rewrite (on_apply_run rt o raw N), F.
  change (guarded Failed (Return out) (display rt)) with (display rt out).
  unfold display, encode_utf8, guarded. rewrite S. split.
  - intros E. rewrite E. reflexivity.
  - intros E D U. rewrite E, D, U. reflexivity.
Qed.

Lemma display_inside_try_witness :
  on_apply rt_sqlparse_only default_options [55296%N]
  = ([SqlparseFormat [55296%N] (fallback_call (u "upper") default_options)],
     Return (Halted [55296%N] false
               (u "Failed to format: " ++ surrogate_message)))
  /\ on_apply rt_sqlparse_only default_options [233%N]
     = ([SqlparseFormat [233%N] (fallback_call (u "upper") default_options)],
        Return (Formatted [233%N])).
Proof.
  split.
  - apply (proj1 (@display_inside_try unit rt_sqlparse_only default_options
                    [55296%N] [55296%N]
                    ltac:(vm_compute; discriminate) eq_refl eq_refl)).
    reflexivity.
  - apply (proj2 (@display_inside_try unit rt_sqlparse_only default_options
                    [233%N] [233%N]
                    ltac:(vm_compute; discriminate) eq_refl eq_refl));
      reflexivity.
Defined.
